(** * pygame_raspberry: the game-state engine of [src/main.py]

    A shallow embedding of the per-frame logic of the two minigames
    (Titanic, an obstacle side-scroller, and Memory, a sequence-recall
    game) and of the mode selector that routes between them.

    Conventions.
    - Python [int] values are [Z]; [//] on a positive divisor is [Z.div].
    - Python [float] values are modelled by exact rationals [Q].  Every
      finite float is a rational, so a statement quantified over [Q]
      covers every value the program can hold; the rounding of individual
      float operations is not modelled.
    - [int(x)] on a float truncates toward zero ([py_int]); [round(x)]
      rounds half to even ([py_round]).
    - [pygame.Rect] is a record of four integers with pygame's attribute
      semantics ([top], [bottom], [inflate], [colliderect], ...).
    - What the loop reads from the outside world in one iteration (clock,
      events, keys, serial flags, random draws) is a [Frame]. *)

From Stdlib Require Import ZArith QArith Qround List Bool Lia Lqa.
Import ListNotations.

Open Scope Z_scope.

(** ** Python numerics *)

(** [int(q)]: truncation toward zero. *)
Definition py_int (q : Q) : Z := Z.quot (Qnum q) (Zpos (Qden q)).

(** [round(q)] with no digits argument: nearest integer, ties to even. *)
Definition py_round (q : Q) : Z :=
  let f := Qfloor q in
  match Qcompare (q - inject_Z f) (1 # 2) with
  | Lt => f
  | Gt => f + 1
  | Eq => if Z.even f then f else f + 1
  end.

(** ** Configuration constants *)

Definition WIDTH : Z := 960.
Definition HEIGHT : Z := 540.

Definition PIPE_WIDTH : Z := 120.
Definition PIPE_GAP_BASE : Z := 220.
Definition PIPE_BASE_SPEED : Q := 4.
Definition PIPE_SPAWN_BASE_MS : Z := 1500.

Definition PLAYER_SPEED : Q := 45 # 10.
Definition PLAYER_MARGIN_TOP_BOTTOM : Z := 20.
Definition INITIAL_LIVES : Z := 3.

Definition ICEBERG_HITBOX_SCALE_X : Q := 1 # 100.
Definition PLAYER_HITBOX_SHRINK : Q := 2 # 10.

Definition MEM_SHOW_MS : Z := 650.
Definition MEM_GAP_MS : Z := 350.
Definition MEM_DEBOUNCE_MS : Z := 200.

(** Side of the star sprite, [load_image(STAR_IMAGE_NAME, (32, 32))]. *)
Definition STAR_SIZE : Z := 32.

(** ** pygame.Rect *)

Module Rect.

Record t : Type := mk { x : Z; y : Z; w : Z; h : Z }.

Definition left (r : t) : Z := x r.
Definition right (r : t) : Z := x r + w r.
Definition top (r : t) : Z := y r.
Definition bottom (r : t) : Z := y r + h r.

(** [r.y += d] *)
Definition move_y (r : t) (d : Z) : t := mk (x r) (y r + d) (w r) (h r).

(** [r.top = v] *)
Definition set_top (r : t) (v : Z) : t := mk (x r) v (w r) (h r).

(** [r.bottom = v] *)
Definition set_bottom (r : t) (v : Z) : t := mk (x r) (v - h r) (w r) (h r).

(** [r.centerx = v] and [r.centery = v]: the half extent is [w >> 1]. *)
Definition set_centerx (r : t) (v : Z) : t :=
  mk (v - Z.shiftr (w r) 1) (y r) (w r) (h r).
Definition set_centery (r : t) (v : Z) : t :=
  mk (x r) (v - Z.shiftr (h r) 1) (w r) (h r).

(** [r.inflate(dx, dy)]: the size grows by [(dx, dy)] and the corner moves
    by half of it, with C's truncating division. *)
Definition inflate (r : t) (dx dy : Z) : t :=
  mk (x r - Z.quot dx 2) (y r - Z.quot dy 2) (w r + dx) (h r + dy).

(** [a.colliderect(b)]: rects of zero width or height collide with
    nothing; otherwise the open spans must overlap on both axes. *)
Definition colliderect (a b : t) : bool :=
  if (w a =? 0) || (h a =? 0) || (w b =? 0) || (h b =? 0) then false
  else
    (Z.min (x a) (x a + w a) <? Z.max (x b) (x b + w b))
    && (Z.min (y a) (y a + h a) <? Z.max (y b) (y b + h b))
    && (Z.max (x a) (x a + w a) >? Z.min (x b) (x b + w b))
    && (Z.max (y a) (y a + h a) >? Z.min (y b) (y b + h b)).

(** Truth value of a rect: both extents are non-zero. *)
Definition truthy (r : t) : bool := negb (w r =? 0) && negb (h r =? 0).

End Rect.

(** ** Player *)

Module Player.

(** The [image] field is only drawn; the engine state is the rect. *)
Record t : Type := mk { rect : Rect.t }.

(** The clamping tail of [update], after [rect.y += delta]. *)
Definition clamp (r : Rect.t) : Rect.t :=
  let r1 :=
    if Rect.top r <? PLAYER_MARGIN_TOP_BOTTOM
    then Rect.set_top r PLAYER_MARGIN_TOP_BOTTOM else r in
  if Rect.bottom r1 >? HEIGHT - PLAYER_MARGIN_TOP_BOTTOM
  then Rect.set_bottom r1 (HEIGHT - PLAYER_MARGIN_TOP_BOTTOM) else r1.

(** The float [dy] accumulated from the two flags.  The product is exact
    here where the code rounds it to a float, so [round(dy)] can differ by
    one pixel at a tie; what is proved about [update] holds for every
    integer step or uses the sign of [dy] only. *)
Definition dy (move_up move_down : bool) (dt : Q) : Q :=
  let dy0 := 0%Q in
  let dy1 := if move_up then (dy0 - PLAYER_SPEED * dt)%Q else dy0 in
  if move_down then (dy1 + PLAYER_SPEED * dt)%Q else dy1.

Definition update (p : t) (move_up move_down : bool) (dt : Q) : t :=
  mk (clamp (Rect.move_y (rect p) (py_round (dy move_up move_down dt)))).

Definition collision_rect (p : t) : Rect.t :=
  let r := rect p in
  let shrink_w := py_int (inject_Z (Rect.w r) * PLAYER_HITBOX_SHRINK) in
  let shrink_h := py_int (inject_Z (Rect.h r) * PLAYER_HITBOX_SHRINK) in
  Rect.inflate r (- shrink_w) (- shrink_h).

End Player.

(** ** IcebergPair *)

Module IcebergPair.

Record t : Type := mk {
  x : Q;
  gap_y : Q;
  width : Z;
  gap : Z;
  passed : bool;
  star_y : option Q;
  star_collected : bool
}.

Definition rects (ib : t) : Rect.t * Rect.t :=
  let top_height := py_int (gap_y ib - inject_Z (gap ib) / 2) in
  let bottom_y := py_int (gap_y ib + inject_Z (gap ib) / 2) in
  let bottom_height := HEIGHT - bottom_y in
  let top_rect := Rect.mk (py_int (x ib)) 0 (width ib) top_height in
  let bottom_rect :=
    Rect.mk (py_int (x ib)) bottom_y (width ib) bottom_height in
  (top_rect, bottom_rect).

Definition shrink_x (rect : Rect.t) : Rect.t :=
  let new_w := py_int (inject_Z (Rect.w rect) * ICEBERG_HITBOX_SCALE_X) in
  if new_w <=? 0 then rect
  else
    let shrink_total := Rect.w rect - new_w in
    Rect.inflate rect (- shrink_total) 0.

Definition collision_rects (ib : t) : Rect.t * Rect.t :=
  let '(top_rect, bottom_rect) := rects ib in
  (shrink_x top_rect, shrink_x bottom_rect).

Definition update (ib : t) (speed dt : Q) : t :=
  mk (x ib - speed * dt)%Q (gap_y ib) (width ib) (gap ib) (passed ib)
     (star_y ib) (star_collected ib).

Definition is_off_screen (ib : t) : bool :=
  match Qcompare (x ib + inject_Z (width ib)) (inject_Z (-10)) with
  | Lt => true
  | _ => false
  end.

(** [star_rect(star_img)] for the 32x32 star sprite. *)
Definition star_rect (ib : t) : option Rect.t :=
  match star_y ib with
  | None => None
  | Some sy =>
      if star_collected ib then None
      else
        let r := Rect.mk 0 0 STAR_SIZE STAR_SIZE in
        let r := Rect.set_centerx r
                   (py_int (x ib + inject_Z (width ib) / 2)) in
        let r := Rect.set_centery r (py_int sy) in
        Some r
  end.

Definition collect_star (ib : t) : t :=
  mk (x ib) (gap_y ib) (width ib) (gap ib) (passed ib) (star_y ib) true.

End IcebergPair.

(** ** Difficulty model *)

Definition compute_level (score : Z) : Z :=
  Z.max 1 (Z.min 10 (score / 5 + 1)).

(** The three difficulty parameters recomputed on every playing tick. *)
Definition gap_of_level (level : Z) : Z :=
  Z.max 140 (PIPE_GAP_BASE - (level - 1) * 8).

Definition speed_of_level (level : Z) : Q :=
  (PIPE_BASE_SPEED + inject_Z (level - 1) * (45 # 100))%Q.

Definition spawn_interval_ms_of_level (level : Z) : Z :=
  Z.max 700 (PIPE_SPAWN_BASE_MS - (level - 1) * 80).

(** ** Engine state *)

(** Arrow symbols of the memory game, the strings ["U"] and ["D"]. *)
Inductive Dir : Type := U | D.

Definition Dir_eqb (a b : Dir) : bool :=
  match a, b with
  | U, U | D, D => true
  | _, _ => false
  end.

(** The values taken by the string variable [state]. *)
Inductive State : Type :=
  | mode_select
  | titanic_menu
  | titanic_playing
  | titanic_game_over
  | memory_ready
  | memory_show
  | memory_input
  | memory_success
  | memory_game_over.

(** The keys the event loop distinguishes. *)
Inductive Key : Type := K_ESCAPE | K_SPACE | K_RETURN | K_r | K_m | K_other.

Inductive Event : Type :=
  | QUIT
  | KEYDOWN (key : Key)
  | OTHER_EVENT.

(** The local variables of [main] that belong to Titanic. *)
Record Titanic : Type := mkTitanic {
  player : Player.t;
  icebergs : list IcebergPair.t;
  score : Z;
  next_spawn : Z;
  lives_left : Z
}.

(** The local variables of [main] that belong to Memory. *)
Record Memory : Type := mkMemory {
  mem_level : Z;
  mem_best_level : Z;
  mem_sequence : list Dir;
  mem_show_index : nat;
  mem_showing_arrow : bool;
  mem_last_change : Z;
  mem_player_inputs : list Dir;
  mem_last_input_time : Z;
  mem_mismatch_positions : list nat
}.

Record Game : Type := mkGame {
  titanic : Titanic;
  memory : Memory;
  state : State;
  prev_move_up : bool;
  prev_move_down : bool;
  running : bool
}.

(** Everything one loop iteration reads from outside the engine. *)
Record Frame : Type := mkFrame {
  dt_ms : Z;                 (* clock.tick(FPS) *)
  events : list Event;       (* pygame.event.get() *)
  keys_up : bool;            (* keys[K_w] or keys[K_UP] *)
  keys_down : bool;          (* keys[K_s] or keys[K_DOWN] *)
  keys_start : bool;         (* keys[K_SPACE] or keys[K_RETURN] *)
  pico_up : bool;            (* read_pico_flags, first component *)
  pico_down : bool;          (* read_pico_flags, second component *)
  ticks : Z;                 (* pygame.time.get_ticks() *)
  rand_gap_y : Z;            (* random.randint(140, HEIGHT - 140) *)
  rand_unit : Q;             (* random.random() inside random.uniform *)
  rand_choice : nat -> Dir   (* the i-th random.choice(["U", "D"]) *)
}.

Definition set_state (g : Game) (s : State) : Game :=
  mkGame (titanic g) (memory g) s (prev_move_up g) (prev_move_down g)
         (running g).

Definition set_titanic (g : Game) (t : Titanic) : Game :=
  mkGame t (memory g) (state g) (prev_move_up g) (prev_move_down g)
         (running g).

Definition set_memory (g : Game) (m : Memory) : Game :=
  mkGame (titanic g) m (state g) (prev_move_up g) (prev_move_down g)
         (running g).

Definition stop_running (g : Game) : Game :=
  mkGame (titanic g) (memory g) (state g) (prev_move_up g) (prev_move_down g)
         false.

Definition set_prev (g : Game) (up down : bool) : Game :=
  mkGame (titanic g) (memory g) (state g) up down (running g).

(** ** Construction and reset *)

Section Engine.

(** Width of the ship sprite once scaled to height 64,
    [int(target_h * aspect)] in [create_player]; it depends on the image
    asset only. *)
Variable ship_w : Z.

Definition create_player : Player.t :=
  let target_h := 64 in
  let rect := Rect.mk 0 0 ship_w target_h in
  let rect := Rect.set_centerx rect (WIDTH / 4) in
  let rect := Rect.set_centery rect (HEIGHT / 2) in
  Player.mk rect.

Definition create_iceberg_pair (gap_y : Z) (gap : Z) (u : Q)
  : IcebergPair.t :=
  let star_margin := STAR_SIZE / 2 + 8 in
  let top_limit :=
    (inject_Z gap_y - inject_Z gap / 2 + inject_Z star_margin)%Q in
  let bottom_limit :=
    (inject_Z gap_y + inject_Z gap / 2 - inject_Z star_margin)%Q in
  let star_y :=
    if Qle_bool bottom_limit top_limit then inject_Z gap_y
    else (top_limit + (bottom_limit - top_limit) * u)%Q in
  IcebergPair.mk (inject_Z (WIDTH + 40)) (inject_Z gap_y) PIPE_WIDTH gap
                 false (Some star_y) false.

(** [reset_titanic], at clock reading [now]. *)
Definition reset_titanic (now : Z) : Titanic :=
  mkTitanic create_player [] 0 (now + 1000) INITIAL_LIVES.

(** The block of assignments that restarts Memory at level 1; it occurs
    twice in [main], on restart from [memory_game_over] and on commit
    from [mode_select].  [mem_best_level] is not assigned. *)
Definition memory_restart (m : Memory) : Memory :=
  mkMemory 1 (mem_best_level m) [] 0 false 0 [] 0 [].

(** The variables as [main] initialises them before the loop. *)
Definition initial_game (now : Z) : Game :=
  mkGame (reset_titanic now)
         (mkMemory 1 0 [] 0 false 0 [] 0 [])
         mode_select false false true.

(** ** Event handling *)

Definition is_restart_key (k : Key) : bool :=
  match k with
  | K_SPACE | K_RETURN | K_r => true
  | _ => false
  end.

Definition handle_event (now : Z) (g : Game) (e : Event) : Game :=
  match e with
  | QUIT => stop_running g
  | KEYDOWN k =>
      let g := match k with K_ESCAPE => stop_running g | _ => g end in
      match state g with
      | titanic_game_over =>
          if is_restart_key k then
            set_state (set_titanic g (reset_titanic now)) titanic_playing
          else match k with
               | K_m => set_state g mode_select
               | _ => g
               end
      | memory_game_over =>
          if is_restart_key k then
            set_state (set_memory g (memory_restart (memory g)))
                      memory_ready
          else match k with
               | K_m => set_state g mode_select
               | _ => g
               end
      | _ => g
      end
  | OTHER_EVENT => g
  end.

Definition handle_events (now : Z) (g : Game) (es : list Event) : Game :=
  fold_left (handle_event now) es g.

(** ** Input levels and rising edges *)

Definition move_up (f : Frame) : bool := keys_up f || pico_up f.
Definition move_down (f : Frame) : bool := keys_down f || pico_down f.

Definition pressed_up (g : Game) (f : Frame) : bool :=
  move_up f && negb (prev_move_up g).
Definition pressed_down (g : Game) (f : Frame) : bool :=
  move_down f && negb (prev_move_down g).

(** [dt = dt_ms / 16.6667] *)
Definition dt_of (f : Frame) : Q := (inject_Z (dt_ms f) / (166667 # 10000))%Q.

(** ** Titanic: one tick of [titanic_playing] *)

(** The body of the collision loop for one pair. *)
Definition hits_iceberg (pcb : Rect.t) (ib : IcebergPair.t) : bool :=
  let '(t_rect, b_rect) := IcebergPair.collision_rects ib in
  Rect.colliderect pcb t_rect || Rect.colliderect pcb b_rect.

(** The collision loop: [hit] after [for ib in icebergs: ... break]. *)
Definition iceberg_collision (p : Player.t) (ibs : list IcebergPair.t)
  : bool :=
  existsb (hits_iceberg (Player.collision_rect p)) ibs.

(** [player.rect.top <= 0 or player.rect.bottom >= HEIGHT] *)
Definition out_of_bounds (p : Player.t) : bool :=
  (Rect.top (Player.rect p) <=? 0)
  || (Rect.bottom (Player.rect p) >=? HEIGHT).

(** The value of [hit] when [if hit:] is reached. *)
Definition hit_test (p : Player.t) (ibs : list IcebergPair.t) : bool :=
  let hit := iceberg_collision p ibs in
  if negb hit && out_of_bounds p then true else hit.

(** [star_rect and player.rect.colliderect(star_rect)] *)
Definition touches_star (p : Player.t) (ib : IcebergPair.t) : bool :=
  match IcebergPair.star_rect ib with
  | Some r => Rect.truthy r && Rect.colliderect (Player.rect p) r
  | None => false
  end.

(** The star loop: every touched star is marked and adds one point. *)
Definition collect_stars (p : Player.t) (ibs : list IcebergPair.t)
    (score : Z) : list IcebergPair.t * Z :=
  fold_left
    (fun acc ib =>
       if touches_star p ib
       then (fst acc ++ [IcebergPair.collect_star ib], snd acc + 1)
       else (fst acc ++ [ib], snd acc))
    ibs ([], score).

Definition titanic_playing_tick (t : Titanic) (f : Frame) : Titanic * State :=
  let level := compute_level (score t) in
  let dt := dt_of f in
  let player := Player.update (player t) (move_up f) (move_down f) dt in
  let gap := gap_of_level level in
  let speed := speed_of_level level in
  let spawn_interval_ms := spawn_interval_ms_of_level level in
  let now := ticks f in
  let '(icebergs, next_spawn) :=
    if now >=? next_spawn t then
      (icebergs t ++ [create_iceberg_pair (rand_gap_y f) gap (rand_unit f)],
       now + spawn_interval_ms)
    else (icebergs t, next_spawn t) in
  let icebergs := map (fun ib => IcebergPair.update ib speed dt) icebergs in
  let icebergs :=
    filter (fun ib => negb (IcebergPair.is_off_screen ib)) icebergs in
  if hit_test player icebergs then
    let lives_left := lives_left t - 1 in
    if lives_left <=? 0 then
      (mkTitanic player icebergs (score t) next_spawn lives_left,
       titanic_game_over)
    else
      (mkTitanic create_player [] (score t) (now + 1000) lives_left,
       titanic_playing)
  else
    let '(icebergs, score) := collect_stars player icebergs (score t) in
    (mkTitanic player icebergs score next_spawn (lives_left t),
     titanic_playing).

(** ** Memory: one tick of each phase *)

Definition memory_ready_tick (m : Memory) (f : Frame) : Memory * State :=
  (mkMemory (mem_level m) (mem_best_level m)
            (map (rand_choice f) (seq 0 (Z.to_nat (mem_level m))))
            0 true (ticks f) [] (mem_last_input_time m) [],
   memory_show).

Definition memory_show_tick (m : Memory) (f : Frame) : Memory * State :=
  let now := ticks f in
  if mem_showing_arrow m then
    if now - mem_last_change m >=? MEM_SHOW_MS then
      (mkMemory (mem_level m) (mem_best_level m) (mem_sequence m)
                (mem_show_index m) false now (mem_player_inputs m)
                (mem_last_input_time m) (mem_mismatch_positions m),
       memory_show)
    else (m, memory_show)
  else
    if now - mem_last_change m >=? MEM_GAP_MS then
      let show_index := S (mem_show_index m) in
      if (length (mem_sequence m) <=? show_index)%nat then
        (mkMemory (mem_level m) (mem_best_level m) (mem_sequence m)
                  show_index false (mem_last_change m) []
                  (mem_last_input_time m) (mem_mismatch_positions m),
         memory_input)
      else
        (mkMemory (mem_level m) (mem_best_level m) (mem_sequence m)
                  show_index true now (mem_player_inputs m)
                  (mem_last_input_time m) (mem_mismatch_positions m),
         memory_show)
    else (m, memory_show).

(** The value of [step] once the debounce test and the two edge tests
    have run. *)
Definition input_step (m : Memory) (now : Z) (p_up p_down : bool)
  : option Dir :=
  if now - mem_last_input_time m >=? MEM_DEBOUNCE_MS then
    if p_up then Some U
    else if p_down then Some D
    else None
  else None.

(** The list comprehension that collects the differing indices.  It is
    only evaluated when [inputs] is at least as long as [sequence], so
    both subscripts are in range. *)
Definition mismatch (inputs sequence : list Dir) : list nat :=
  filter (fun i => negb (Dir_eqb (nth i inputs U) (nth i sequence U)))
         (seq 0 (length sequence)).

Definition memory_input_tick (m : Memory) (now : Z) (p_up p_down : bool)
  : Memory * State :=
  match input_step m now p_up p_down with
  | None => (m, memory_input)
  | Some step =>
      let inputs := mem_player_inputs m ++ [step] in
      if (length (mem_sequence m) <=? length inputs)%nat then
        match mismatch inputs (mem_sequence m) with
        | (_ :: _) as mism =>
            let last_success := mem_level m - 1 in
            let last_success :=
              if last_success <? 0 then 0 else last_success in
            (mkMemory (mem_level m)
                      (Z.max (mem_best_level m) last_success)
                      (mem_sequence m) (mem_show_index m)
                      (mem_showing_arrow m) (mem_last_change m)
                      inputs now mism,
             memory_game_over)
        | [] =>
            (mkMemory (mem_level m + 1)
                      (Z.max (mem_best_level m) (mem_level m))
                      (mem_sequence m) (mem_show_index m)
                      (mem_showing_arrow m) now
                      inputs now (mem_mismatch_positions m),
             memory_success)
        end
      else
        (mkMemory (mem_level m) (mem_best_level m) (mem_sequence m)
                  (mem_show_index m) (mem_showing_arrow m)
                  (mem_last_change m) inputs now
                  (mem_mismatch_positions m),
         memory_input)
  end.

Definition memory_success_tick (m : Memory) (f : Frame) : State :=
  if ticks f - mem_last_change m >=? 1000 then memory_ready
  else memory_success.

(** ** The state dispatch and the whole loop body *)

(** The [if state == ...: ... elif ...] chain. *)
Definition logic (g : Game) (f : Frame) : Game :=
  match state g with
  | mode_select =>
      if move_up f then
        set_state (set_titanic g (reset_titanic (ticks f))) titanic_menu
      else if move_down f then
        set_state (set_memory g (memory_restart (memory g))) memory_ready
      else g
  | titanic_menu =>
      if keys_start f || move_up f || move_down f
      then set_state g titanic_playing else g
  | titanic_playing =>
      let '(t, s) := titanic_playing_tick (titanic g) f in
      set_state (set_titanic g t) s
  | titanic_game_over => g
  | memory_ready =>
      let '(m, s) := memory_ready_tick (memory g) f in
      set_state (set_memory g m) s
  | memory_show =>
      let '(m, s) := memory_show_tick (memory g) f in
      set_state (set_memory g m) s
  | memory_input =>
      let '(m, s) :=
        memory_input_tick (memory g) (ticks f)
                          (pressed_up g f) (pressed_down g f) in
      set_state (set_memory g m) s
  | memory_success =>
      set_state g (memory_success_tick (memory g) f)
  | memory_game_over => g
  end.

(** One iteration of the [while running] loop, drawing left out: the
    events are handled first, then the state logic runs on the state the
    events left, and last the input levels are remembered. *)
Definition tick (g : Game) (f : Frame) : Game :=
  let g := handle_events (ticks f) g (events f) in
  let g := logic g f in
  set_prev g (move_up f) (move_down f).

(** The [while running] loop over a finite supply of frames. *)
Fixpoint run (g : Game) (fs : list Frame) : Game :=
  match fs with
  | [] => g
  | f :: fs' => if running g then run (tick g f) fs' else g
  end.

End Engine.

(** The two states in which the event loop reacts to keys other than
    escape. *)
Definition game_over_state (s : State) : bool :=
  match s with
  | titanic_game_over | memory_game_over => true
  | _ => false
  end.

(** ** Specification-side definitions *)

(** [clamp(v, lo, hi)] as the specification words it. *)
Definition clamp_spec (v lo hi : Z) : Z :=
  if v <? lo then lo else if hi <? v then hi else v.

(** The level formula of the specification. *)
Definition level_spec (score : Z) : Z := clamp_spec (score / 5 + 1) 1 10.

(** A collision slit as the specification words it: the rect with its width
    shrunk to 1% of the nominal width (rounded down to whole pixels) and
    centred on the original span. *)
Definition slit_spec (r : Rect.t) : Rect.t :=
  let w' := Rect.w r / 100 in
  Rect.mk (Rect.x r + (Rect.w r - w') / 2) (Rect.y r) w' (Rect.h r).

(** The avatar hitbox as the specification words it: the rect shrunk by 20%
    of its width and height (rounded down to whole pixels), half of it on
    each side. *)
Definition shrunk_spec (r : Rect.t) : Rect.t :=
  let sw := Rect.w r / 5 in
  let sh := Rect.h r / 5 in
  Rect.mk (Rect.x r + sw / 2) (Rect.y r + sh / 2) (Rect.w r - sw)
          (Rect.h r - sh).

(** The avatar is pinned against a margin by the clamp of [update]. *)
Definition pinned (p : Player.t) : Prop :=
  Rect.top (Player.rect p) = PLAYER_MARGIN_TOP_BOTTOM
  \/ Rect.bottom (Player.rect p) = HEIGHT - PLAYER_MARGIN_TOP_BOTTOM.

(** The vertical band the avatar must stay in. *)
Definition in_band (p : Player.t) : Prop :=
  PLAYER_MARGIN_TOP_BOTTOM <= Rect.top (Player.rect p)
  /\ Rect.bottom (Player.rect p) <= HEIGHT - PLAYER_MARGIN_TOP_BOTTOM.

(** One call of [Player.update]: the two flags and [dt]. *)
Definition Move : Type := (bool * bool * Q)%type.

(** The avatar after each call of a sequence of [update] calls. *)
Fixpoint updates (p : Player.t) (ms : list Move) : list Player.t :=
  match ms with
  | [] => []
  | (up, down, dt) :: ms' =>
      let p' := Player.update p up down dt in
      p' :: updates p' ms'
  end.

(** ** Scenarios *)

(** An avatar at rest, and a pair at a given [x] with its gap centred at
    [y = 400]: at [x = 180] the avatar straddles the slit, at [x = 230] it
    only overlaps the drawn width. *)
Definition resting_player : Player.t := create_player 64.

Definition pair_at (x : Z) : IcebergPair.t :=
  IcebergPair.mk (inject_Z x) 400 PIPE_WIDTH 220 false (Some (inject_Z 400))
                 false.

(** Frames of a session with a 64 pixel wide ship.  Long frames
    ([dt_ms = 3417]) carry a freshly spawned pair from the right edge to
    the avatar's column in a single tick. *)
Definition frame (dt : Z) (es : list Event) (up down start : bool)
    (now gap_y : Z) : Frame :=
  mkFrame dt es up down start false false now gap_y (1 # 2) (fun _ => U).

Definition idle (now : Z) : Frame := frame 17 [] false false false now 270.
Definition hold_up (now : Z) : Frame := frame 17 [] true false false now 270.
Definition hold_down (now : Z) : Frame := frame 17 [] false true false now 270.
Definition hold_both (now : Z) : Frame := frame 17 [] true true false now 270.
Definition start (now : Z) : Frame := frame 17 [] false false true now 270.
Definition key_m (up : bool) (now : Z) : Frame :=
  frame 17 [KEYDOWN K_m] up false false now 270.
(** The spawned pair's gap surrounds the avatar: its star is collected. *)
Definition star (now : Z) : Frame := frame 3417 [] false false false now 270.
(** The spawned pair's top iceberg reaches down to the avatar: a hit. *)
Definition crash (now : Z) : Frame := frame 3417 [] false false false now 400.

(** From program start: commit to Titanic, collect one star, lose the three
    lives; the game is over with score 1. *)
Definition session_played : list Frame :=
  [hold_up 100; idle 200; start 300; star 1200; idle 1300;
   crash 3000; crash 4100; crash 5200].

(** ... then abandon to the selector with [M]. *)
Definition session_abandoned : list Frame :=
  session_played ++ [key_m false 5300].

(** ... then commit to Titanic again. *)
Definition session_recommitted : list Frame :=
  session_abandoned ++ [hold_up 5400].

(** ... lose the three lives without a star and abandon again. *)
Definition session_round_trip : list Frame :=
  session_recommitted
  ++ [idle 5500; start 5600; crash 6500; crash 7600; crash 8700;
      key_m false 8800].

(** After the game is over, up is held and [M] is pressed while it is still
    held: the hold is carried into the selector. *)
Definition session_hold_carried : list Frame :=
  session_played ++ [hold_up 5250; key_m true 5300].

(** A Memory round in its input phase: sequence, inputs so far, level, best
    level and time of the last accepted input. *)
Definition input_phase (sequence inputs : list Dir) (level best last : Z)
  : Game :=
  mkGame (reset_titanic 64 0)
         (mkMemory level best sequence (length sequence) false 0 inputs last [])
         memory_input false false true.

(** Two presses of up, [d] milliseconds apart, with a release in between,
    then up kept held. *)
Definition two_presses (d : Z) : list Frame :=
  [hold_up 5000; idle (5000 + d / 2); hold_up (5000 + d);
   hold_up (5000 + d + 300)].

(** The frame [f] with the down input released on both sources. *)
Definition release_down (f : Frame) : Frame :=
  mkFrame (dt_ms f) (events f) (keys_up f) false (keys_start f) (pico_up f)
          false (ticks f) (rand_gap_y f) (rand_unit f) (rand_choice f).

(** A playing tick at score 5 on which a pair is due. *)
Definition titanic_at_score_5 : Titanic :=
  mkTitanic (create_player 64) [] 5 1000 INITIAL_LIVES.

(** ** Drawing: the geometry of what the loop draws

    Text, overlays and sprites are left out; a polygon is the colour and
    the point list handed to [pygame.draw.polygon]. *)

Definition Color : Type := (Z * Z * Z)%type.
Definition Polygon : Type := (Color * list (Z * Z))%type.

(** Python's two-argument [max] and [min] on floats. *)
Definition py_max (a b : Q) : Q := if Qle_bool b a then a else b.
Definition py_min (a b : Q) : Q := if Qle_bool a b then a else b.

(** The triangle both drawing functions build for a direction. *)
Definition arrow_points (direction : Dir) (x y size : Z) : list (Z * Z) :=
  match direction with
  | U => [(x, y - size / 2); (x - size / 3, y + size / 3);
          (x + size / 3, y + size / 3)]
  | D => [(x, y + size / 2); (x - size / 3, y - size / 3);
          (x + size / 3, y - size / 3)]
  end.

Definition draw_memory_arrow (direction : Dir) (progress : Q) : Polygon :=
  let progress := py_max 0 (py_min 1 progress) in
  let x := WIDTH / 2 in
  let size := 60 in
  let start_y := HEIGHT + size in
  let end_y := HEIGHT / 2 in
  let y := py_int (inject_Z start_y + inject_Z (end_y - start_y) * progress) in
  ((250, 250, 255), arrow_points direction x y size).

(** [mismatch] is [None] for the default argument; the set built from it
    is used for membership only. *)
Definition draw_memory_seq_row (sequence : list Dir) (y : Z)
    (mismatch : option (list nat)) (all_green : bool) : list Polygon :=
  let mismatch_set := match mismatch with None => [] | Some l => l end in
  let gap := 70 in
  let size := 40 in
  let total_w :=
    match sequence with
    | [] => 0
    | _ => (Z.of_nat (length sequence) - 1) * gap
    end in
  let start_x := WIDTH / 2 - total_w / 2 in
  map (fun id : nat * Dir =>
         let x := start_x + Z.of_nat (fst id) * gap in
         let color :=
           if all_green then (0, 230, 120)
           else if existsb (Nat.eqb (fst id)) mismatch_set then (230, 70, 90)
           else (240, 240, 255) in
         (color, arrow_points (snd id) x y size))
      (combine (seq 0 (length sequence)) sequence).

(** The polygons of the Memory branch of the drawing code, for the state
    the logic left and the clock reading [now]. *)
Definition memory_polygons (m : Memory) (s : State) (now : Z) : list Polygon :=
  match s with
  | memory_show =>
      if mem_showing_arrow m
         && (mem_show_index m <? length (mem_sequence m))%nat
      then
        let elapsed := now - mem_last_change m in
        let progress :=
          py_min 1 (py_max 0 (inject_Z elapsed / inject_Z MEM_SHOW_MS)) in
        [draw_memory_arrow (nth (mem_show_index m) (mem_sequence m) U)
                           progress]
      else []
  | memory_input =>
      draw_memory_seq_row (mem_player_inputs m) (HEIGHT / 2) None false
  | memory_success =>
      draw_memory_seq_row (mem_sequence m) (HEIGHT / 2 - 30) None true
      ++ draw_memory_seq_row (mem_player_inputs m) (HEIGHT / 2 + 30) None true
  | memory_game_over =>
      draw_memory_seq_row (mem_sequence m) (HEIGHT / 2 + 50)
                          (Some (mem_mismatch_positions m)) false
      ++ draw_memory_seq_row (mem_player_inputs m) (HEIGHT / 2 + 110)
                             (Some (mem_mismatch_positions m)) false
  | _ => []
  end.

(** The scrolling background: the new [bg_x], and the x positions of the
    two blits of the screen-wide image.  The arithmetic is exact here where
    the code rounds to floats, so a value can differ in the last place;
    bounds on [bg_x] are stated closed, as rounding keeps them. *)
Definition scroll_background (bg_x dt : Q) : Q :=
  let bg_x := (bg_x - (3 # 10) * dt)%Q in
  if Qle_bool bg_x (inject_Z (- WIDTH)) then (bg_x + inject_Z WIDTH)%Q
  else bg_x.

Definition background_blits (bg_x : Q) : Z * Z :=
  (py_int bg_x, py_int bg_x + WIDTH).

(** The hearts of the HUD: for each of the [INITIAL_LIVES] slots, whether
    the live heart is drawn, and the x of the 28 pixel sprite. *)
Definition draw_hearts (lives_left : Z) : list (bool * Z) :=
  let heart_w := 28 in
  let spacing := 8 in
  map (fun i : nat =>
         (Z.of_nat i <? lives_left,
          WIDTH - (Z.of_nat i + 1) * (heart_w + spacing) + spacing))
      (seq 0 (Z.to_nat INITIAL_LIVES)).

(** ** Contracts of the outside world and reachable-state invariants *)

(** What the library calls behind a frame guarantee: [clock.tick] returns
    a non-negative number of milliseconds, [random.randint(140, HEIGHT -
    140)] a value in that range and [random.random()] a value in [0, 1]. *)
Definition frame_ok (f : Frame) : Prop :=
  0 <= dt_ms f
  /\ 140 <= rand_gap_y f <= HEIGHT - 140
  /\ (0 <= rand_unit f <= 1)%Q.

(** The shape of a pair wherever it is: nominal width, a gap the
    difficulty model can produce, a gap centre [randint] can produce, a
    star inside the gap at least 24 pixels from its ends, and a position
    not right of the spawn point. *)
Definition pair_shape (ib : IcebergPair.t) : Prop :=
  IcebergPair.width ib = PIPE_WIDTH
  /\ 148 <= IcebergPair.gap ib <= PIPE_GAP_BASE
  /\ (exists gy, IcebergPair.gap_y ib = inject_Z gy
                 /\ 140 <= gy <= HEIGHT - 140)
  /\ (exists sy, IcebergPair.star_y ib = Some sy
                 /\ (IcebergPair.gap_y ib - inject_Z (IcebergPair.gap ib) / 2
                     + 24 <= sy)%Q
                 /\ (sy <= IcebergPair.gap_y ib
                           + inject_Z (IcebergPair.gap ib) / 2 - 24)%Q)
  /\ (IcebergPair.x ib <= inject_Z (WIDTH + 40))%Q.

(** A pair on the field has that shape and has not left the screen. *)
Definition pair_ok (ib : IcebergPair.t) : Prop :=
  pair_shape ib /\ IcebergPair.is_off_screen ib = false.

(** What holds of the Titanic variables in every state of a session. *)
Definition titanic_inv (w : Z) (g : Game) : Prop :=
  let t := titanic g in
  0 <= lives_left t <= INITIAL_LIVES
  /\ (state g = titanic_menu \/ state g = titanic_playing ->
      1 <= lives_left t)
  /\ (state g = titanic_game_over -> lives_left t = 0)
  /\ 0 <= score t
  /\ Rect.w (Player.rect (player t)) = w
  /\ Rect.h (Player.rect (player t)) = 64
  /\ Rect.x (Player.rect (player t)) = WIDTH / 4 - Z.shiftr w 1
  /\ in_band (player t)
  /\ Forall pair_ok (icebergs t).

(** What holds of the Memory variables in every state of a session. *)
Definition memory_inv (g : Game) : Prop :=
  let m := memory g in
  1 <= mem_level m
  /\ 0 <= mem_best_level m
  /\ mem_level m - 1 <= mem_best_level m
  /\ (state g = memory_show ->
      length (mem_sequence m) = Z.to_nat (mem_level m)
      /\ (mem_show_index m < length (mem_sequence m))%nat
      /\ mem_player_inputs m = []
      /\ mem_mismatch_positions m = [])
  /\ (state g = memory_input ->
      length (mem_sequence m) = Z.to_nat (mem_level m)
      /\ (length (mem_player_inputs m) < length (mem_sequence m))%nat
      /\ mem_mismatch_positions m = [])
  /\ (state g = memory_success ->
      mem_player_inputs m = mem_sequence m
      /\ Z.of_nat (length (mem_sequence m)) = mem_level m - 1
      /\ mem_mismatch_positions m = [])
  /\ (state g = memory_game_over ->
      length (mem_player_inputs m) = length (mem_sequence m)
      /\ length (mem_sequence m) = Z.to_nat (mem_level m)
      /\ mem_mismatch_positions m
         = mismatch (mem_player_inputs m) (mem_sequence m)
      /\ mem_mismatch_positions m <> []).

(** The events that clear [running]: closing the window and the escape
    key. *)
Definition stops (e : Event) : bool :=
  match e with
  | QUIT | KEYDOWN K_ESCAPE => true
  | _ => false
  end.

(** A Memory session from program start ([random.choice] always yields
    U): commit, watch the one-symbol sequence, answer it ... *)
Definition memory_session_success : list Frame :=
  [hold_down 100; idle 200; idle 900; idle 1300; hold_up 1400].

(** ... watch the two-symbol sequence of level 2 ... *)
Definition memory_session_input : list Frame :=
  memory_session_success
  ++ [idle 2500; idle 2600; idle 3300; idle 3700; idle 4400; idle 4800].

(** ... and answer it with down, up. *)
Definition memory_session_over : list Frame :=
  memory_session_input ++ [hold_down 4900; idle 5000; hold_up 5200].

(** The reveal of a sequence generated at clock reading [T0] for level
    [L] is still under way: symbol [mem_show_index] is on display since
    at least [T0 + 1000 * mem_show_index], or was taken off display at
    least 650 ms later than that. *)
Definition revealing (T0 L : Z) (g : Game) : Prop :=
  let m := memory g in
  state g = memory_show
  /\ Z.of_nat (length (mem_sequence m)) = L
  /\ (mem_show_index m < length (mem_sequence m))%nat
  /\ T0 + (MEM_SHOW_MS + MEM_GAP_MS) * Z.of_nat (mem_show_index m)
     + (if mem_showing_arrow m then 0 else MEM_SHOW_MS)
     <= mem_last_change m.

(** The three states of Titanic. *)
Definition titanic_state (s : State) : bool :=
  match s with
  | titanic_menu | titanic_playing | titanic_game_over => true
  | _ => false
  end.

(** The states the loop passes through: the game after each iteration of
    [run]. *)
Fixpoint trace (w : Z) (g : Game) (fs : list Frame) : list Game :=
  match fs with
  | [] => []
  | f :: fs' =>
      if running g then tick w g f :: trace w (tick w g f) fs' else []
  end.

(** From the selector reached with score 1: commit to Memory, watch the
    one-symbol sequence, answer it wrongly, and abandon with [M]. *)
Definition memory_excursion : list Frame :=
  [hold_down 5400; idle 5500; idle 6200; idle 6600; hold_down 6700;
   key_m false 6800].

(** * Properties *)

(** ** Difficulty model *)

Lemma compute_level_range (score : Z) : 1 <= compute_level score <= 10.
Proof. unfold compute_level. lia. Qed.

Lemma compute_level_mono (s1 s2 : Z) :
  s1 <= s2 -> compute_level s1 <= compute_level s2.
Proof.
  intros Hle. unfold compute_level.
  assert (s1 / 5 <= s2 / 5) by (apply Z.div_le_mono; lia).
  lia.
Qed.

Lemma compute_level_is_clamp (score : Z) :
  compute_level score = level_spec score.
Proof.
  unfold compute_level, level_spec, clamp_spec.
  destruct (score / 5 + 1 <? 1) eqn:E1; [apply Z.ltb_lt in E1; lia|].
  apply Z.ltb_ge in E1.
  destruct (10 <? score / 5 + 1) eqn:E2;
    [apply Z.ltb_lt in E2 | apply Z.ltb_ge in E2]; lia.
Qed.

(** C6. For a non-negative score the level is [clamp(score // 5 + 1, 1, 10)];
    it lies in [1, 10], is non-decreasing in the score, is [k + 1] at score
    [5 * k] for [k] in [0, 9], and is 10 from score 45 on. *)
Theorem compute_level_correct (score score' k : Z) :
  0 <= score -> score <= score' -> 0 <= k <= 9 ->
  compute_level score = level_spec score
  /\ 1 <= compute_level score <= 10
  /\ compute_level score <= compute_level score'
  /\ compute_level (5 * k) = k + 1
  /\ (45 <= score -> compute_level score = 10).
Proof.
  intros Hs Hle Hk.
  split; [apply compute_level_is_clamp|].
  split; [apply compute_level_range|].
  split; [apply compute_level_mono; exact Hle|].
  split.
  - unfold compute_level.
    replace (5 * k / 5) with k by (rewrite Z.mul_comm, Z.div_mul; lia).
    lia.
  - intros H45. unfold compute_level.
    assert (9 <= score / 5) by (apply Z.div_le_lower_bound; lia).
    lia.
Qed.

Lemma compute_level_correct_witness :
  compute_level 47 = level_spec 47
  /\ 1 <= compute_level 47 <= 10
  /\ compute_level 47 <= compute_level 50
  /\ compute_level (5 * 3) = 3 + 1
  /\ (45 <= 47 -> compute_level 47 = 10).
Proof. apply (compute_level_correct 47 50 3); lia. Defined.

(** C7. For a level [L] in [1, 10] the playing tick uses
    [gap = max(140, 220 - (L-1)*8)], [speed = 4.0 + (L-1)*0.45] and
    [spawn_interval_ms = max(700, 1500 - (L-1)*80)]; so the gap is at least
    140 and the speed at least 4.0, and at level 2, the level of score 5,
    they are 212, 4.45 and 1420. *)
Theorem difficulty_parameters (L : Z) :
  1 <= L <= 10 ->
  gap_of_level L = Z.max 140 (220 - (L - 1) * 8)
  /\ (speed_of_level L == 4 + inject_Z (L - 1) * (45 # 100))%Q
  /\ spawn_interval_ms_of_level L = Z.max 700 (1500 - (L - 1) * 80)
  /\ 140 <= gap_of_level L
  /\ (4 <= speed_of_level L)%Q
  /\ compute_level 5 = 2
  /\ gap_of_level 2 = 212
  /\ (speed_of_level 2 == 445 # 100)%Q
  /\ spawn_interval_ms_of_level 2 = 1420
  /\ (let t' := fst (titanic_playing_tick 64 titanic_at_score_5 (idle 1000)) in
      next_spawn t' = 1000 + 1420
      /\ match icebergs t' with
         | [ib] =>
             IcebergPair.gap ib = 212
             /\ (IcebergPair.x ib
                 == inject_Z (WIDTH + 40) - (445 # 100) * dt_of (idle 1000))%Q
         | _ => False
         end).
Proof.
  intros HL.
  split; [reflexivity|].
  split; [reflexivity|].
  split; [reflexivity|].
  split; [unfold gap_of_level; lia|].
  split.
  - unfold speed_of_level, PIPE_BASE_SPEED.
    rewrite <- (Qplus_0_r 4) at 1.
    apply Qplus_le_compat; [apply Qle_refl|].
    apply Qmult_le_0_compat; [|discriminate].
    change 0%Q with (inject_Z 0). rewrite <- Zle_Qle. lia.
  - cbv zeta. repeat split; reflexivity.
Qed.

Lemma difficulty_parameters_witness :
  gap_of_level 10 = Z.max 140 (220 - (10 - 1) * 8)
  /\ (speed_of_level 10 == 4 + inject_Z (10 - 1) * (45 # 100))%Q
  /\ spawn_interval_ms_of_level 10 = Z.max 700 (1500 - (10 - 1) * 80)
  /\ 140 <= gap_of_level 10
  /\ (4 <= speed_of_level 10)%Q
  /\ compute_level 5 = 2
  /\ gap_of_level 2 = 212
  /\ (speed_of_level 2 == 445 # 100)%Q
  /\ spawn_interval_ms_of_level 2 = 1420.
Proof.
  destruct (difficulty_parameters 10)
    as (H1 & H2 & H3 & H4 & H5 & H6 & H7 & H8 & H9 & _); [lia|].
  repeat split; assumption.
Defined.

(** ** Avatar *)

Lemma clamp_h (r : Rect.t) : Rect.h (Player.clamp r) = Rect.h r.
Proof.
  unfold Player.clamp.
  destruct (Rect.top r <? _); destruct (Rect.bottom _ >? _); reflexivity.
Qed.

Lemma clamp_in_band (r : Rect.t) :
  Rect.h r <= HEIGHT - 2 * PLAYER_MARGIN_TOP_BOTTOM ->
  PLAYER_MARGIN_TOP_BOTTOM <= Rect.top (Player.clamp r)
  /\ Rect.bottom (Player.clamp r) <= HEIGHT - PLAYER_MARGIN_TOP_BOTTOM.
Proof.
  unfold Player.clamp, Rect.top, Rect.bottom, Rect.set_top, Rect.set_bottom,
    HEIGHT, PLAYER_MARGIN_TOP_BOTTOM.
  destruct r as [x y w h]; cbn [Rect.x Rect.y Rect.w Rect.h]. intros Hh.
  destruct (y <? 20) eqn:Et; cbn [Rect.x Rect.y Rect.w Rect.h];
    [apply Z.ltb_lt in Et | apply Z.ltb_ge in Et].
  - destruct (20 + h >? 540 - 20) eqn:Eb; rewrite Z.gtb_ltb in Eb;
      cbn [Rect.x Rect.y Rect.w Rect.h];
      [apply Z.ltb_lt in Eb | apply Z.ltb_ge in Eb]; lia.
  - destruct (y + h >? 540 - 20) eqn:Eb; rewrite Z.gtb_ltb in Eb;
      cbn [Rect.x Rect.y Rect.w Rect.h];
      [apply Z.ltb_lt in Eb | apply Z.ltb_ge in Eb]; lia.
Qed.

Lemma update_h (p : Player.t) (up down : bool) (dt : Q) :
  Rect.h (Player.rect (Player.update p up down dt)) = Rect.h (Player.rect p).
Proof.
  unfold Player.update. cbn [Player.rect]. rewrite clamp_h. reflexivity.
Qed.

Lemma update_in_band (p : Player.t) (up down : bool) (dt : Q) :
  Rect.h (Player.rect p) <= HEIGHT - 2 * PLAYER_MARGIN_TOP_BOTTOM ->
  in_band (Player.update p up down dt).
Proof.
  intros Hh. unfold in_band, Player.update. cbn [Player.rect].
  apply clamp_in_band. exact Hh.
Qed.

(** C8. Whatever the flags and [dt] of each call, after every call of a
    sequence of [update] calls the avatar's rect has [top >= 20] and
    [bottom <= HEIGHT - 20].  The avatar's height must fit the band, as the
    64 pixel ship of [create_player] does. *)
Theorem avatar_stays_in_band (p : Player.t) (ms : list Move) :
  Rect.h (Player.rect p) <= HEIGHT - 2 * PLAYER_MARGIN_TOP_BOTTOM ->
  Forall (fun q => 20 <= Rect.top (Player.rect q)
                   /\ Rect.bottom (Player.rect q) <= HEIGHT - 20)
         (updates p ms).
Proof.
  revert p. induction ms as [|[[up down] dt] ms IH]; intros p Hh.
  - constructor.
  - cbn [updates]. constructor.
    + apply (update_in_band p up down dt Hh).
    + apply IH. rewrite update_h. exact Hh.
Qed.

Lemma avatar_stays_in_band_witness :
  Forall (fun q => 20 <= Rect.top (Player.rect q)
                   /\ Rect.bottom (Player.rect q) <= HEIGHT - 20)
         (updates (create_player 64)
                  [(true, false, 1000%Q); (false, true, 3%Q);
                   (false, true, 1000%Q); (true, true, 2%Q)]).
Proof. apply avatar_stays_in_band. vm_compute. discriminate. Defined.

(** ** The out-of-bounds test *)

Lemma out_of_bounds_in_band (p : Player.t) :
  in_band p -> out_of_bounds p = false.
Proof.
  unfold in_band, out_of_bounds, HEIGHT, PLAYER_MARGIN_TOP_BOTTOM.
  intros [Ht Hb].
  apply orb_false_iff. split.
  - apply Z.leb_gt. lia.
  - rewrite Z.geb_leb. apply Z.leb_gt. lia.
Qed.

Lemma hit_test_in_band (p : Player.t) (ibs : list IcebergPair.t) :
  in_band p -> hit_test p ibs = iceberg_collision p ibs.
Proof.
  intros Hb. unfold hit_test.
  rewrite (out_of_bounds_in_band p Hb), andb_false_r. reflexivity.
Qed.

(** C3, as the claim states it, fails: an avatar driven up for a long tick
    is pinned at the top margin by the clamp, the out-of-bounds test is
    false on it, and the playing tick takes no life. *)
Lemma out_of_bounds_pinned_counterexample :
  let p := Player.update (create_player 64) true false 1000 in
  let f := mkFrame 17 [] true false false false false 500 270 (1 # 2)
                   (fun _ => U) in
  let t := mkTitanic p [] 0 5000 INITIAL_LIVES in
  pinned p
  /\ out_of_bounds p = false
  /\ pinned (player (fst (titanic_playing_tick 64 t f)))
  /\ lives_left (fst (titanic_playing_tick 64 t f)) = INITIAL_LIVES.
Proof. vm_compute. repeat split; left; reflexivity. Qed.

(** C3, amended.  The out-of-bounds test compares the avatar's full rect with
    the screen edges, [top <= 0 or bottom >= HEIGHT], not with the clamp
    margins; after [update] the rect lies within [20, HEIGHT - 20], so the
    test is false on every playing tick, pinned or not, and the hit flag is
    the result of the iceberg loop alone. *)
Theorem out_of_bounds_never_fires (p : Player.t) (up down : bool) (dt : Q)
    (ibs : list IcebergPair.t) :
  Rect.h (Player.rect p) <= HEIGHT - 2 * PLAYER_MARGIN_TOP_BOTTOM ->
  out_of_bounds (Player.update p up down dt) = false
  /\ hit_test (Player.update p up down dt) ibs
     = iceberg_collision (Player.update p up down dt) ibs.
Proof.
  intros Hh.
  pose proof (update_in_band p up down dt Hh) as Hb.
  split; [apply out_of_bounds_in_band | apply hit_test_in_band]; exact Hb.
Qed.

Lemma out_of_bounds_never_fires_witness :
  out_of_bounds (Player.update (create_player 64) true false 1000) = false
  /\ hit_test (Player.update (create_player 64) true false 1000) []
     = iceberg_collision (Player.update (create_player 64) true false 1000) [].
Proof. apply out_of_bounds_never_fires. vm_compute. discriminate. Defined.

(** ** Collision geometry *)

Lemma py_int_scale (w a : Z) (b : positive) :
  py_int (inject_Z w * (a # b)) = Z.quot (w * a) (Zpos b).
Proof. reflexivity. Qed.

Lemma shrink_x_pipe (x y h : Z) :
  IcebergPair.shrink_x (Rect.mk x y PIPE_WIDTH h) = Rect.mk (x + 59) y 1 h.
Proof.
  unfold IcebergPair.shrink_x, Rect.inflate, PIPE_WIDTH, ICEBERG_HITBOX_SCALE_X.
  cbn [Rect.x Rect.y Rect.w Rect.h].
  rewrite py_int_scale.
  change (Z.quot (120 * 1) 100) with 1.
  cbn [Z.leb Z.compare]. cbv beta iota zeta.
  change (Z.quot (- (120 - 1)) 2) with (-59).
  change (Z.quot 0 2) with 0.
  f_equal; lia.
Qed.

Lemma slit_spec_pipe (x y h : Z) :
  slit_spec (Rect.mk x y PIPE_WIDTH h) = Rect.mk (x + 59) y 1 h.
Proof. reflexivity. Qed.

Lemma collision_rects_slits (ib : IcebergPair.t) :
  IcebergPair.width ib = PIPE_WIDTH ->
  IcebergPair.collision_rects ib
  = (slit_spec (fst (IcebergPair.rects ib)),
     slit_spec (snd (IcebergPair.rects ib))).
Proof.
  intros Hw. unfold IcebergPair.collision_rects, IcebergPair.rects.
  rewrite Hw. cbn [fst snd].
  rewrite !shrink_x_pipe, !slit_spec_pipe. reflexivity.
Qed.

Lemma collision_rect_shrunk (p : Player.t) :
  0 <= Rect.w (Player.rect p) -> 0 <= Rect.h (Player.rect p) ->
  Player.collision_rect p = shrunk_spec (Player.rect p).
Proof.
  intros Hw Hh.
  unfold Player.collision_rect, shrunk_spec, Rect.inflate, PLAYER_HITBOX_SHRINK.
  rewrite !py_int_scale.
  change (Z.pos 10) with (5 * 2).
  rewrite !Z.quot_mul_cancel_r by lia.
  rewrite !Z.quot_opp_l by lia.
  rewrite (Z.quot_div_nonneg (Rect.w (Player.rect p)) 5) by lia.
  rewrite (Z.quot_div_nonneg (Rect.h (Player.rect p)) 5) by lia.
  rewrite !Z.quot_div_nonneg by (try apply Z.div_pos; lia).
  f_equal; lia.
Qed.

(** A rect of positive extent misses a one pixel wide slit whose column is
    outside its horizontal span. *)
Lemma colliderect_misses_column (a : Rect.t) (X y h : Z) :
  0 <= Rect.w a ->
  Rect.right a <= X \/ X + 1 <= Rect.left a ->
  Rect.colliderect a (Rect.mk X y 1 h) = false.
Proof.
  intros Hw Hout. unfold Rect.colliderect, Rect.right, Rect.left in *.
  cbn [Rect.x Rect.y Rect.w Rect.h].
  destruct (_ || _ || _ || _); [reflexivity|].
  destruct Hout as [Hr | Hl].
  - assert (E : (Z.max (Rect.x a) (Rect.x a + Rect.w a)
                 >? Z.min X (X + 1)) = false)
      by (rewrite Z.gtb_ltb; apply Z.ltb_ge; lia).
    rewrite E, andb_false_r. reflexivity.
  - assert (E : (Z.min (Rect.x a) (Rect.x a + Rect.w a)
                 <? Z.max X (X + 1)) = false)
      by (apply Z.ltb_ge; lia).
    rewrite E. reflexivity.
Qed.

(** C2. For pairs of the nominal width the collision rects are the top and
    bottom rects narrowed to a slit of 1% of the width (1 pixel of 120),
    centred on the pair's span; the avatar's collision rect is its rect
    shrunk by 20% in width and height, half on each side; on a playing tick
    the hit flag is set exactly when the avatar's shrunk rect intersects one
    of the slits, and it is not set when the shrunk rect lies beside every
    slit's column, even inside the drawn width. *)
Theorem collision_uses_slits (p : Player.t) (up down : bool) (dt : Q)
    (ibs : list IcebergPair.t) :
  0 <= Rect.w (Player.rect p) ->
  0 <= Rect.h (Player.rect p) <= HEIGHT - 2 * PLAYER_MARGIN_TOP_BOTTOM ->
  Forall (fun ib => IcebergPair.width ib = PIPE_WIDTH) ibs ->
  let p' := Player.update p up down dt in
  let pcb := Player.collision_rect p' in
  Forall (fun ib =>
            IcebergPair.collision_rects ib
            = (slit_spec (fst (IcebergPair.rects ib)),
               slit_spec (snd (IcebergPair.rects ib)))
            /\ Rect.w (fst (IcebergPair.collision_rects ib)) = 1
            /\ Rect.x (fst (IcebergPair.collision_rects ib))
               = py_int (IcebergPair.x ib) + 59) ibs
  /\ pcb = shrunk_spec (Player.rect p')
  /\ (hit_test p' ibs = true <->
      exists ib, In ib ibs
        /\ (Rect.colliderect pcb (slit_spec (fst (IcebergPair.rects ib))) = true
            \/ Rect.colliderect pcb (slit_spec (snd (IcebergPair.rects ib)))
               = true))
  /\ ((forall ib, In ib ibs ->
         Rect.right pcb <= py_int (IcebergPair.x ib) + 59
         \/ py_int (IcebergPair.x ib) + 60 <= Rect.left pcb) ->
      hit_test p' ibs = false).
Proof.
  intros Hw Hh Hall p' pcb.
  assert (Hw' : Rect.w (Player.rect p') = Rect.w (Player.rect p)).
  { unfold p', Player.update, Player.clamp. cbn [Player.rect].
    destruct (Rect.top _ <? _); destruct (Rect.bottom _ >? _); reflexivity. }
  assert (Hh' : Rect.h (Player.rect p') = Rect.h (Player.rect p))
    by apply update_h.
  assert (Hpcb : pcb = shrunk_spec (Player.rect p'))
    by (apply collision_rect_shrunk; lia).
  assert (Hhit : hit_test p' ibs = iceberg_collision p' ibs)
    by (apply hit_test_in_band, update_in_band; lia).
  split; [|split; [exact Hpcb|split]].
  - apply Forall_impl with (2 := Hall). intros ib Hib.
    rewrite (collision_rects_slits ib Hib).
    unfold IcebergPair.rects. rewrite Hib. cbn [fst snd].
    rewrite slit_spec_pipe. cbn [Rect.w Rect.x]. auto.
  - rewrite Hhit. unfold iceberg_collision. fold pcb.
    rewrite existsb_exists. rewrite Forall_forall in Hall.
    split; intros [ib [Hin Hc]]; exists ib; (split; [exact Hin|]);
      unfold hits_iceberg in *;
      rewrite (collision_rects_slits ib (Hall ib Hin)) in *;
      [apply orb_true_iff in Hc | apply orb_true_iff]; exact Hc.
  - intros Hbeside. rewrite Hhit. unfold iceberg_collision. fold pcb.
    apply not_true_is_false. rewrite existsb_exists.
    rewrite Forall_forall in Hall.
    intros [ib [Hin Hc]]. unfold hits_iceberg in Hc.
    rewrite (collision_rects_slits ib (Hall ib Hin)) in Hc.
    unfold IcebergPair.rects in Hc. rewrite (Hall ib Hin) in Hc.
    cbn [fst snd] in Hc. rewrite !slit_spec_pipe in Hc.
    assert (Hpw : 0 <= Rect.w pcb).
    { rewrite Hpcb. unfold shrunk_spec. cbn [Rect.w]. rewrite Hw'.
      assert (Rect.w (Player.rect p) / 5 <= Rect.w (Player.rect p))
        by (apply Z.div_le_upper_bound; lia).
      lia. }
    specialize (Hbeside ib Hin).
    rewrite !colliderect_misses_column in Hc by (try exact Hpw; lia).
    discriminate.
Qed.

Example slit_crossing_is_hit :
  hit_test (Player.update resting_player false false 1) [pair_at 180] = true.
Proof. reflexivity. Qed.

Lemma collision_uses_slits_witness :
  Rect.colliderect
    (Player.collision_rect (Player.update resting_player false false 1))
    (fst (IcebergPair.rects (pair_at 230))) = true
  /\ hit_test (Player.update resting_player false false 1) [pair_at 230]
     = false.
Proof.
  split; [reflexivity|].
  destruct (collision_uses_slits resting_player false false 1 [pair_at 230])
    as (_ & _ & _ & Hbeside).
  - vm_compute. discriminate.
  - vm_compute. split; discriminate.
  - repeat constructor.
  - apply Hbeside. intros ib [<- | []]. left. vm_compute. discriminate.
Defined.

(** ** Events *)

Lemma handle_event_prev (w now : Z) (g : Game) (e : Event) :
  prev_move_up (handle_event w now g e) = prev_move_up g
  /\ prev_move_down (handle_event w now g e) = prev_move_down g.
Proof.
  destruct g as [t m s pu pd r].
  destruct e as [|k|]; cbn; auto.
  destruct k; destruct s; cbn; auto.
Qed.

Lemma handle_events_prev (w now : Z) (es : list Event) (g : Game) :
  prev_move_up (handle_events w now g es) = prev_move_up g
  /\ prev_move_down (handle_events w now g es) = prev_move_down g.
Proof.
  unfold handle_events. revert g.
  induction es as [|e es IH]; intros g; cbn [fold_left]; [auto|].
  destruct (IH (handle_event w now g e)) as [-> ->].
  apply handle_event_prev.
Qed.

(** Outside the two game-over states the event loop can only clear
    [running]. *)
Lemma handle_event_inert (w now : Z) (g : Game) (e : Event) :
  game_over_state (state g) = false ->
  titanic (handle_event w now g e) = titanic g
  /\ memory (handle_event w now g e) = memory g
  /\ state (handle_event w now g e) = state g.
Proof.
  destruct g as [t m s pu pd r]. cbn [state]. intros Hs.
  destruct e as [|k|]; cbn; auto.
  destruct k; destruct s; cbn; auto; discriminate Hs.
Qed.

Lemma handle_events_inert (w now : Z) (es : list Event) (g : Game) :
  game_over_state (state g) = false ->
  titanic (handle_events w now g es) = titanic g
  /\ memory (handle_events w now g es) = memory g
  /\ state (handle_events w now g es) = state g.
Proof.
  unfold handle_events. revert g.
  induction es as [|e es IH]; intros g Hs; cbn [fold_left]; [auto|].
  destruct (handle_event_inert w now g e Hs) as (Ht & Hm & Hst).
  destruct (IH (handle_event w now g e)) as (-> & -> & ->);
    [rewrite Hst; exact Hs | auto].
Qed.

(** In the input phase a tick is the input step on the Memory variables. *)
Lemma tick_memory_input (w : Z) (g : Game) (f : Frame) :
  state g = memory_input ->
  memory (tick w g f)
  = fst (memory_input_tick (memory g) (ticks f) (pressed_up g f)
                           (pressed_down g f))
  /\ state (tick w g f)
     = snd (memory_input_tick (memory g) (ticks f) (pressed_up g f)
                              (pressed_down g f))
  /\ titanic (tick w g f) = titanic g
  /\ prev_move_up (tick w g f) = move_up f
  /\ prev_move_down (tick w g f) = move_down f.
Proof.
  intros Hs. unfold tick.
  destruct (handle_events_inert w (ticks f) (events f) g) as (Ht & Hm & Hst);
    [rewrite Hs; reflexivity|].
  destruct (handle_events_prev w (ticks f) (events f) g) as [Hpu Hpd].
  set (g1 := handle_events w (ticks f) g (events f)) in *.
  unfold logic. rewrite Hst, Hs.
  replace (pressed_up g1 f) with (pressed_up g f)
    by (unfold pressed_up; rewrite Hpu; reflexivity).
  replace (pressed_down g1 f) with (pressed_down g f)
    by (unfold pressed_down; rewrite Hpd; reflexivity).
  rewrite Hm.
  destruct (memory_input_tick _ _ _ _) as [m s]. cbn. auto.
Qed.

(** ** Memory: evaluation of a round *)

Lemma Dir_eqb_eq (a b : Dir) : Dir_eqb a b = true <-> a = b.
Proof. destruct a, b; cbn; split; congruence. Qed.

Lemma mismatch_In (inputs sequence : list Dir) (i : nat) :
  In i (mismatch inputs sequence)
  <-> (i < length sequence)%nat /\ nth i inputs U <> nth i sequence U.
Proof.
  unfold mismatch. rewrite filter_In, in_seq, negb_true_iff.
  rewrite <- not_true_iff_false, Dir_eqb_eq. intuition lia.
Qed.

Lemma mismatch_NoDup (inputs sequence : list Dir) :
  NoDup (mismatch inputs sequence).
Proof. unfold mismatch. apply NoDup_filter, seq_NoDup. Qed.

(** C1. In the input phase, when an accepted press brings the input buffer
    to the length of the sequence, the round is evaluated index by index.
    If some index differs, [mem_mismatch_positions] holds exactly the
    differing indices, [mem_best_level] becomes
    [max(mem_best_level, max(mem_level - 1, 0))] and the state is
    [memory_game_over]; if none differs, [mem_best_level] becomes
    [max(mem_best_level, mem_level)], [mem_level] grows by one and the state
    is [memory_success].  For the sequence U,D,U and the inputs U,U,U the
    mismatch positions are [1] and the game is over. *)
Theorem memory_round_evaluated (w : Z) (g : Game) (f : Frame) (step : Dir) :
  state g = memory_input ->
  input_step (memory g) (ticks f) (pressed_up g f) (pressed_down g f)
  = Some step ->
  (length (mem_sequence (memory g))
   <= length (mem_player_inputs (memory g)) + 1)%nat ->
  let m := memory g in
  let m' := memory (tick w g f) in
  let inputs := mem_player_inputs m ++ [step] in
  let differs i := nth i inputs U <> nth i (mem_sequence m) U in
  mem_player_inputs m' = inputs
  /\ ((exists i, (i < length (mem_sequence m))%nat /\ differs i) ->
      (forall i, In i (mem_mismatch_positions m')
                 <-> (i < length (mem_sequence m))%nat /\ differs i)
      /\ NoDup (mem_mismatch_positions m')
      /\ mem_best_level m'
         = Z.max (mem_best_level m) (Z.max (mem_level m - 1) 0)
      /\ mem_level m' = mem_level m
      /\ state (tick w g f) = memory_game_over)
  /\ ((forall i, (i < length (mem_sequence m))%nat -> ~ differs i) ->
      mem_best_level m' = Z.max (mem_best_level m) (mem_level m)
      /\ mem_level m' = mem_level m + 1
      /\ state (tick w g f) = memory_success)
  /\ (let g0 := input_phase [U; D; U] [U; U] 3 0 0 in
      mem_player_inputs (memory (tick 64 g0 (hold_up 5000))) = [U; U; U]
      /\ mem_mismatch_positions (memory (tick 64 g0 (hold_up 5000))) = [1%nat]
      /\ mem_best_level (memory (tick 64 g0 (hold_up 5000))) = 3 - 1
      /\ state (tick 64 g0 (hold_up 5000)) = memory_game_over).
Proof.
  intros Hs Hstep Hlen m m' inputs differs.
  destruct (tick_memory_input w g f Hs) as (Hm & Hst & _).
  fold m' in Hm. rewrite Hst. subst m'. rewrite Hm. fold m. clear Hm Hst.
  unfold memory_input_tick. fold m in Hstep. rewrite Hstep. fold inputs.
  assert (Hguard : (length (mem_sequence m) <=? length inputs)%nat = true).
  { apply Nat.leb_le. unfold inputs. rewrite length_app. cbn. exact Hlen. }
  rewrite Hguard.
  pose proof (mismatch_In inputs (mem_sequence m)) as Hin.
  pose proof (mismatch_NoDup inputs (mem_sequence m)) as Hnd.
  destruct (mismatch inputs (mem_sequence m)) as [|n l] eqn:E;
    cbn [fst snd mem_player_inputs mem_mismatch_positions mem_best_level
         mem_level].
  - split; [reflexivity|]. split; [|split].
    + intros [i Hi]. apply Hin in Hi. destruct Hi.
    + intros _. auto.
    + cbv zeta. repeat split; reflexivity.
  - split; [reflexivity|]. split; [|split].
    + intros _. split; [exact Hin|]. split; [exact Hnd|].
      split; [|auto].
      f_equal. destruct (mem_level m - 1 <? 0) eqn:El;
        [apply Z.ltb_lt in El | apply Z.ltb_ge in El]; lia.
    + intros Hall. exfalso.
      destruct (proj1 (Hin n) (or_introl eq_refl)) as [Hn Hd].
      exact (Hall n Hn Hd).
    + cbv zeta. repeat split; reflexivity.
Qed.

Lemma memory_round_evaluated_witness :
  let g := input_phase [U; D] [U] 2 0 0 in
  let f := hold_down 5000 in
  mem_player_inputs (memory (tick 64 g f)) = [U; D]
  /\ mem_best_level (memory (tick 64 g f)) = 2
  /\ mem_level (memory (tick 64 g f)) = 3
  /\ state (tick 64 g f) = memory_success.
Proof.
  intros g f.
  destruct (memory_round_evaluated 64 g f D) as (Hin & _ & Hok & _).
  - reflexivity.
  - reflexivity.
  - cbn. lia.
  - split; [exact Hin|]. apply Hok.
    intros [|[|i]] Hi; cbn; [congruence | congruence | cbn in Hi; lia].
Defined.

(** ** Memory: debounce and priority of the input step *)

(** The input step appends at most the one symbol [input_step] yields, and
    without a symbol it leaves the Memory variables alone. *)
Lemma memory_input_tick_inputs (m : Memory) (now : Z) (pu pd : bool) :
  let r := memory_input_tick m now pu pd in
  match input_step m now pu pd with
  | Some s =>
      mem_player_inputs (fst r) = mem_player_inputs m ++ [s]
      /\ mem_last_input_time (fst r) = now
  | None => r = (m, memory_input)
  end.
Proof.
  unfold memory_input_tick.
  destruct (input_step m now pu pd) as [s|]; [|reflexivity].
  destruct (_ <=? _)%nat; [destruct (mismatch _ _)|]; cbn; auto.
Qed.

Lemma input_step_spec (m : Memory) (now : Z) (pu pd : bool) :
  input_step m now pu pd
  = if (MEM_DEBOUNCE_MS <=? now - mem_last_input_time m) && (pu || pd)
    then Some (if pu then U else D) else None.
Proof.
  unfold input_step. rewrite Z.geb_leb.
  destruct (MEM_DEBOUNCE_MS <=? _), pu, pd; reflexivity.
Qed.

(** C5. In the input phase a press (a rising edge of up or down) is accepted
    exactly when [now - mem_last_input_time >= 200]: then one symbol is
    appended and the time recorded; otherwise nothing changes, the press is
    dropped.  Two presses 150 ms (or 199 ms) apart give one input, also when
    the key stays held afterwards; two presses exactly 200 ms apart give
    two. *)
Theorem debounce_window (w : Z) (g : Game) (f : Frame) :
  state g = memory_input ->
  let m := memory g in
  let m' := memory (tick w g f) in
  let elapsed := ticks f - mem_last_input_time m in
  let press := pressed_up g f || pressed_down g f in
  let accepted := (MEM_DEBOUNCE_MS <=? elapsed) && press in
  mem_player_inputs m'
  = (if accepted
     then mem_player_inputs m ++ [if pressed_up g f then U else D]
     else mem_player_inputs m)
  /\ mem_last_input_time m'
     = (if accepted then ticks f else mem_last_input_time m)
  /\ (accepted = false -> m' = m /\ state (tick w g f) = memory_input)
  /\ (let played d :=
        mem_player_inputs
          (memory (run 64 (input_phase [U; U; U] [] 3 0 0) (two_presses d))) in
      played 150 = [U] /\ played 199 = [U] /\ played 200 = [U; U]).
Proof.
  intros Hs m m' elapsed press accepted.
  destruct (tick_memory_input w g f Hs) as (Hm & Hst & _).
  fold m' in Hm. rewrite Hst. subst m'. rewrite Hm. fold m. clear Hm Hst.
  pose proof (memory_input_tick_inputs m (ticks f) (pressed_up g f)
                (pressed_down g f)) as Hstep.
  cbv zeta in Hstep. rewrite input_step_spec in Hstep.
  fold elapsed press accepted in Hstep.
  destruct accepted.
  - destruct Hstep as [Hi Ht].
    split; [exact Hi|]. split; [exact Ht|].
    split; [discriminate|]. cbv zeta. repeat split; reflexivity.
  - rewrite Hstep. cbn [fst snd].
    split; [reflexivity|]. split; [reflexivity|].
    split; [auto|]. cbv zeta. repeat split; reflexivity.
Qed.

Lemma debounce_window_witness :
  let g := run 64 (input_phase [U; U; U] [] 3 0 0) [hold_up 5000; idle 5075] in
  mem_player_inputs (memory g) = [U]
  /\ memory (tick 64 g (hold_up 5150)) = memory g
  /\ state (tick 64 g (hold_up 5150)) = memory_input
  /\ mem_player_inputs (memory (tick 64 g (hold_up 5200))) = [U; U].
Proof.
  intros g.
  destruct (debounce_window 64 g (hold_up 5150)) as (_ & _ & Hdrop & _);
    [reflexivity|].
  destruct (debounce_window 64 g (hold_up 5200)) as (Hacc & _);
    [reflexivity|].
  split; [reflexivity|].
  split; [apply Hdrop; reflexivity|].
  split; [apply Hdrop; reflexivity|].
  exact Hacc.
Defined.

(** C10. In the input phase a tick appends at most one symbol; when up and
    down both rise in the same tick and the debounce window has elapsed the
    symbol is U, the Memory variables and the state are what they would be
    had down not been pressed at all, and while down stays held no later
    tick sees a down press. *)
Theorem up_edge_has_priority (w : Z) (g : Game) (f : Frame) :
  state g = memory_input ->
  let m := memory g in
  let m' := memory (tick w g f) in
  (mem_player_inputs m' = mem_player_inputs m
   \/ exists s, mem_player_inputs m' = mem_player_inputs m ++ [s])
  /\ (pressed_up g f = true -> pressed_down g f = true ->
      MEM_DEBOUNCE_MS <= ticks f - mem_last_input_time m ->
      mem_player_inputs m' = mem_player_inputs m ++ [U]
      /\ m' = memory (tick w g (release_down f))
      /\ state (tick w g f) = state (tick w g (release_down f))
      /\ forall f2, move_down f2 = true ->
                    pressed_down (tick w g f) f2 = false).
Proof.
  intros Hs m m'.
  destruct (tick_memory_input w g f Hs) as (Hm & Hst & _ & _ & Hpd).
  destruct (tick_memory_input w g (release_down f) Hs) as (Hm2 & Hst2 & _).
  fold m' in Hm. fold m in Hm, Hm2.
  pose proof (memory_input_tick_inputs m (ticks f) (pressed_up g f)
                (pressed_down g f)) as Hstep.
  cbv zeta in Hstep. rewrite input_step_spec in Hstep. split.
  - rewrite Hm.
    destruct (_ && _); [right; eexists; apply Hstep | left].
    rewrite Hstep. reflexivity.
  - intros Hu Hd Hel. rewrite Hst, Hst2, Hm2, Hm.
    rewrite Hu, Hd in *.
    assert (Hup2 : pressed_up g (release_down f) = true) by exact Hu.
    assert (Hdn2 : pressed_down g (release_down f) = false) by reflexivity.
    rewrite Hup2, Hdn2. change (ticks (release_down f)) with (ticks f).
    apply Z.leb_le in Hel. rewrite Hel in Hstep. cbn in Hstep.
    split; [apply Hstep|].
    assert (Hsame : memory_input_tick m (ticks f) true true
                    = memory_input_tick m (ticks f) true false).
    { unfold memory_input_tick, input_step.
      destruct (_ >=? _); reflexivity. }
    rewrite Hsame. split; [reflexivity|]. split; [reflexivity|].
    intros f2 _. unfold pressed_down. rewrite Hpd.
    unfold move_down in Hd |- *. unfold pressed_down in Hd.
    apply andb_true_iff in Hd. destruct Hd as [Hd _].
    unfold move_down in Hd. rewrite Hd. apply andb_false_r.
Qed.

Lemma up_edge_has_priority_witness :
  let g := input_phase [U; D; U] [] 3 0 0 in
  mem_player_inputs (memory (tick 64 g (hold_both 5000))) = [U]
  /\ memory (tick 64 g (hold_both 5000)) = memory (tick 64 g (hold_up 5000))
  /\ pressed_down (tick 64 g (hold_both 5000)) (hold_down 5300) = false.
Proof.
  intros g.
  destruct (up_edge_has_priority 64 g (hold_both 5000)) as [_ H];
    [reflexivity|].
  destruct H as (Hi & Hm & _ & Hq);
    [reflexivity | reflexivity | vm_compute; discriminate|].
  split; [exact Hi|]. split; [exact Hm|]. apply Hq. reflexivity.
Defined.

(** ** Mode selector *)

(** The selector branch of the state logic. *)
Lemma logic_mode_select (w : Z) (g : Game) (f : Frame) :
  state g = mode_select ->
  logic w g f
  = if move_up f then
      set_state (set_titanic g (reset_titanic w (ticks f))) titanic_menu
    else if move_down f then
      set_state (set_memory g (memory_restart (memory g))) memory_ready
    else g.
Proof. intros Hs. unfold logic. rewrite Hs. reflexivity. Qed.

(** C9, as the claim states it, fails.  In the session below the game is
    over, up is held, and [M] is pressed while up is still held: there is no
    rising edge on that tick, yet the selector entered by the [M] event
    commits to Titanic at once. *)
Lemma mode_select_hold_counterexample :
  let g := run 64 (initial_game 64 0) (session_played ++ [hold_up 5250]) in
  let f := key_m true 5300 in
  run 64 (initial_game 64 0) session_hold_carried = tick 64 g f
  /\ state g = titanic_game_over
  /\ prev_move_up g = true
  /\ state (handle_events 64 (ticks f) g (events f)) = mode_select
  /\ pressed_up g f = false
  /\ pressed_down g f = false
  /\ state (tick 64 g f) = titanic_menu.
Proof. vm_compute. repeat split; reflexivity. Qed.

(** C9, amended.  On a tick whose state is [mode_select] once the events
    are handled, commitment depends on the input levels only: with up held
    the state becomes [titanic_menu] and the Titanic variables are those of
    [reset_titanic]; otherwise with down held the state becomes
    [memory_ready] and Memory is restarted at level 1 with empty sequence
    and inputs; with neither held nothing is committed.  The previous
    levels play no part, so a hold carried into the selector commits. *)
Theorem mode_select_commit (w : Z) (g : Game) (f : Frame) :
  let g1 := handle_events w (ticks f) g (events f) in
  state g1 = mode_select ->
  (move_up f = true ->
   state (tick w g f) = titanic_menu
   /\ titanic (tick w g f) = reset_titanic w (ticks f)
   /\ memory (tick w g f) = memory g1)
  /\ (move_up f = false -> move_down f = true ->
      state (tick w g f) = memory_ready
      /\ memory (tick w g f) = memory_restart (memory g1)
      /\ mem_level (memory (tick w g f)) = 1
      /\ titanic (tick w g f) = titanic g1)
  /\ (move_up f = false -> move_down f = false ->
      state (tick w g f) = mode_select
      /\ memory (tick w g f) = memory g1
      /\ titanic (tick w g f) = titanic g1).
Proof.
  intros g1 Hs. unfold tick. fold g1.
  rewrite (logic_mode_select w g1 f Hs).
  split; [|split].
  - intros ->. cbn. auto.
  - intros -> ->. cbn. auto.
  - intros -> ->. cbn. auto.
Qed.

Lemma mode_select_commit_witness :
  let g := run 64 (initial_game 64 0) (session_played ++ [hold_up 5250]) in
  state (tick 64 g (key_m true 5300)) = titanic_menu
  /\ state (tick 64 (initial_game 64 0) (hold_down 100)) = memory_ready
  /\ mem_level (memory (tick 64 (initial_game 64 0) (hold_down 100))) = 1
  /\ state (tick 64 (initial_game 64 0) (idle 100)) = mode_select.
Proof.
  intros g.
  destruct (mode_select_commit 64 g (key_m true 5300)) as (Hup & _);
    [vm_compute; reflexivity|].
  destruct (mode_select_commit 64 (initial_game 64 0) (hold_down 100))
    as (_ & Hdown & _); [reflexivity|].
  destruct (mode_select_commit 64 (initial_game 64 0) (idle 100))
    as (_ & _ & Hidle); [reflexivity|].
  split; [apply Hup; reflexivity|].
  split; [apply Hdown; reflexivity|].
  split; [apply Hdown; reflexivity|].
  apply Hidle; reflexivity.
Defined.

(** ** What a mode switch keeps *)

Lemma handle_event_best (w now : Z) (g : Game) (e : Event) :
  mem_best_level (memory (handle_event w now g e)) = mem_best_level (memory g).
Proof.
  destruct g as [t m s pu pd r].
  destruct e as [|k|]; cbn; auto.
  destruct k; destruct s; cbn; auto.
Qed.

Lemma handle_events_best (w now : Z) (es : list Event) (g : Game) :
  mem_best_level (memory (handle_events w now g es))
  = mem_best_level (memory g).
Proof.
  unfold handle_events. revert g.
  induction es as [|e es IH]; intros g; cbn [fold_left]; [reflexivity|].
  rewrite IH. apply handle_event_best.
Qed.

Lemma memory_input_tick_best (m : Memory) (now : Z) (pu pd : bool) :
  mem_best_level m <= mem_best_level (fst (memory_input_tick m now pu pd)).
Proof.
  unfold memory_input_tick.
  destruct (input_step m now pu pd); [|cbn; lia].
  destruct (_ <=? _)%nat; [destruct (mismatch _ _)|]; cbn; lia.
Qed.

Lemma logic_best (w : Z) (g : Game) (f : Frame) :
  mem_best_level (memory g) <= mem_best_level (memory (logic w g f)).
Proof.
  unfold logic. destruct (state g).
  - destruct (move_up f); [cbn; lia|]. destruct (move_down f); cbn; lia.
  - destruct (_ || _ || _); cbn; lia.
  - destruct (titanic_playing_tick w (titanic g) f). cbn. lia.
  - lia.
  - cbn. lia.
  - unfold memory_show_tick.
    destruct (mem_showing_arrow (memory g)).
    + destruct (_ >=? _); cbn; lia.
    + destruct (_ >=? _); [destruct (_ <=? _)%nat|]; cbn; lia.
  - pose proof (memory_input_tick_best (memory g) (ticks f) (pressed_up g f)
                  (pressed_down g f)) as H.
    destruct (memory_input_tick _ _ _ _). cbn in *. exact H.
  - cbn. lia.
  - lia.
Qed.

(** C4, as the claim states it, fails.  From program start: a Titanic
    session ends with score 1 and is abandoned to the selector, which keeps
    the score; committing to Titanic again resets it to 0, and after that
    game is lost without a star and abandoned the selector is reached with
    score 0, not 1. *)
Lemma mode_switch_score_counterexample :
  let g1 := run 64 (initial_game 64 0) session_abandoned in
  let g2 := run 64 (initial_game 64 0) session_recommitted in
  let g3 := run 64 (initial_game 64 0) session_round_trip in
  state g1 = mode_select /\ score (titanic g1) = 1
  /\ g2 = tick 64 g1 (hold_up 5400)
  /\ state g2 = titanic_menu /\ score (titanic g2) = 0
  /\ state g3 = mode_select /\ score (titanic g3) = 0.
Proof. vm_compute. repeat split; reflexivity. Qed.

Lemma titanic_playing_tick_state (w : Z) (t : Titanic) (f : Frame) :
  snd (titanic_playing_tick w t f) = titanic_playing
  \/ snd (titanic_playing_tick w t f) = titanic_game_over.
Proof.
  unfold titanic_playing_tick.
  destruct (ticks f >=? next_spawn t); cbv beta iota zeta;
    (destruct (hit_test _ _);
     [destruct (_ <=? 0) | destruct (collect_stars _ _ _)]);
    cbn; auto.
Qed.

(** The event loop leaves the Titanic variables alone unless it restarts
    Titanic, and then the state is [titanic_playing]. *)
Lemma handle_events_titanic (w now : Z) (es : list Event) (g : Game) :
  titanic (handle_events w now g es) = titanic g
  \/ state (handle_events w now g es) = titanic_playing.
Proof.
  unfold handle_events.
  assert (H : forall es g',
             titanic g' = titanic g \/ state g' = titanic_playing ->
             titanic (fold_left (handle_event w now) es g') = titanic g
             \/ state (fold_left (handle_event w now) es g')
                = titanic_playing).
  { clear es. induction es as [|e es IH]; intros g' Hg'; cbn [fold_left];
      [exact Hg'|].
    apply IH. destruct g' as [t m s pu pd r]. cbn [titanic state] in Hg'.
    destruct Hg' as [Ht | Hs].
    - destruct e as [|k|]; cbn; auto.
      destruct k, s; cbn; auto.
    - subst s. destruct e as [|k|]; cbn; auto.
      destruct k; cbn; auto. }
  apply H. left. reflexivity.
Qed.

(** The state logic leaves the Titanic variables alone unless its result
    is a Titanic state. *)
Lemma logic_keeps_titanic (w : Z) (g : Game) (f : Frame) :
  titanic_state (state (logic w g f)) = false ->
  titanic (logic w g f) = titanic g /\ state g <> titanic_playing.
Proof.
  unfold logic. destruct (state g) eqn:Es.
  - destruct (move_up f); [intros E; discriminate E|].
    destruct (move_down f); cbn; split; auto; discriminate.
  - destruct (_ || _ || _); cbn; rewrite ?Es; intros E; discriminate E.
  - pose proof (titanic_playing_tick_state w (titanic g) f) as H.
    destruct (titanic_playing_tick w (titanic g) f) as [t s].
    cbn in *. intros E. destruct H as [-> | ->]; discriminate E.
  - rewrite Es. intros E; discriminate E.
  - cbn. split; auto; discriminate.
  - destruct (memory_show_tick (memory g) f). cbn. split; auto; discriminate.
  - destruct (memory_input_tick _ _ _ _). cbn. split; auto; discriminate.
  - cbn. split; auto; discriminate.
  - split; [reflexivity | discriminate].
Qed.

(** An iteration that does not end in a Titanic state has not touched the
    Titanic variables. *)
Lemma tick_keeps_titanic (w : Z) (g : Game) (f : Frame) :
  titanic_state (state (tick w g f)) = false ->
  titanic (tick w g f) = titanic g.
Proof.
  unfold tick. cbn [set_prev state titanic]. intros H.
  destruct (logic_keeps_titanic w _ f H) as [Ht Hs]. rewrite Ht.
  destruct (handle_events_titanic w (ticks f) (events f) g) as [E | E];
    [exact E | contradiction].
Qed.

Lemma run_keeps_titanic (w : Z) (fs : list Frame) (g : Game) :
  Forall (fun g' => titanic_state (state g') = false) (trace w g fs) ->
  titanic (run w g fs) = titanic g.
Proof.
  revert g. induction fs as [|f fs IH]; intros g H; cbn [run trace] in *;
    [reflexivity|].
  destruct (running g); [|reflexivity].
  inversion H as [|g' l Hg' Hl E]; subst.
  rewrite (IH _ Hl). apply tick_keeps_titanic. exact Hg'.
Qed.

Lemma tick_best (w : Z) (g : Game) (f : Frame) :
  mem_best_level (memory g) <= mem_best_level (memory (tick w g f)).
Proof.
  unfold tick. cbn [set_prev memory].
  rewrite <- (handle_events_best w (ticks f) (events f) g).
  apply logic_best.
Qed.

Lemma run_best (w : Z) (fs : list Frame) (g : Game) :
  mem_best_level (memory g) <= mem_best_level (memory (run w g fs)).
Proof.
  revert g. induction fs as [|f fs IH]; intros g; cbn [run]; [lia|].
  destruct (running g); [|lia].
  pose proof (tick_best w g f). pose proof (IH (tick w g f)). lia.
Qed.

(** C4, amended.  Abandoning a game-over state with [M] changes the state
    variable only.  [mem_best_level] is never reset: no tick and no run of
    ticks lowers it, and a Memory restart keeps it while putting the level
    back to 1.  The Titanic score is reset to 0 by a Titanic restart and
    also by committing to Titanic from the selector; a selector tick that
    does not commit to Titanic (commit to Memory, or no input) leaves every
    Titanic variable, the score included, as it was.  More generally an
    iteration that does not end in a Titanic state, and so any run of
    iterations that passes through no Titanic state, leaves every Titanic
    variable as it was: a round trip selector, Memory, selector keeps the
    score. *)
Theorem mode_switch_effects (w : Z) (g : Game) (f : Frame) (k : Key)
    (fs : list Frame) :
  let now := ticks f in
  let g1 := handle_events w now g (events f) in
  (game_over_state (state g) = true ->
   handle_event w now g (KEYDOWN K_m) = set_state g mode_select)
  /\ mem_best_level (memory g) <= mem_best_level (memory (tick w g f))
  /\ (is_restart_key k = true -> state g = memory_game_over ->
      let g' := handle_event w now g (KEYDOWN k) in
      mem_best_level (memory g') = mem_best_level (memory g)
      /\ mem_level (memory g') = 1
      /\ titanic g' = titanic g
      /\ state g' = memory_ready)
  /\ (is_restart_key k = true -> state g = titanic_game_over ->
      let g' := handle_event w now g (KEYDOWN k) in
      score (titanic g') = 0
      /\ memory g' = memory g
      /\ state g' = titanic_playing)
  /\ (state g1 = mode_select -> move_up f = false ->
      titanic (tick w g f) = titanic g1
      /\ mem_best_level (memory (tick w g f)) = mem_best_level (memory g1))
  /\ (state g1 = mode_select -> move_up f = true ->
      score (titanic (tick w g f)) = 0
      /\ memory (tick w g f) = memory g1)
  /\ (titanic_state (state (tick w g f)) = false ->
      titanic (tick w g f) = titanic g)
  /\ (Forall (fun g' => titanic_state (state g') = false) (trace w g fs) ->
      titanic (run w g fs) = titanic g
      /\ score (titanic (run w g fs)) = score (titanic g))
  /\ mem_best_level (memory g) <= mem_best_level (memory (run w g fs)).
Proof.
  intros now g1.
  split; [|split; [|split; [|split; [|split; [|split; [|split; [|split]]]]]]].
  - destruct g as [t m s pu pd r]. cbn [state].
    destruct s; cbn; intros Hs; try discriminate Hs; reflexivity.
  - apply tick_best.
  - destruct g as [t m s pu pd r]. cbn [state]. intros Hk ->.
    destruct k; try discriminate Hk; cbn; auto.
  - destruct g as [t m s pu pd r]. cbn [state]. intros Hk ->.
    destruct k; try discriminate Hk; cbn; auto.
  - intros Hs Hu. unfold tick. fold now g1.
    rewrite (logic_mode_select w g1 f Hs), Hu.
    destruct (move_down f); cbn; auto.
  - intros Hs Hu. unfold tick. fold now g1.
    rewrite (logic_mode_select w g1 f Hs), Hu. cbn. auto.
  - apply tick_keeps_titanic.
  - intros H. rewrite (run_keeps_titanic w fs g H). auto.
  - apply run_best.
Qed.

Lemma mode_switch_effects_witness :
  let g := run 64 (initial_game 64 0) session_played in
  let s := run 64 (initial_game 64 0) session_abandoned in
  handle_event 64 5300 g (KEYDOWN K_m) = set_state g mode_select
  /\ score (titanic (tick 64 s (hold_down 5400))) = 1
  /\ score (titanic (tick 64 s (hold_up 5400))) = 0
  /\ score (titanic (handle_event 64 5300 g (KEYDOWN K_r))) = 0
  /\ mem_best_level (memory s)
     <= mem_best_level (memory (tick 64 s (hold_down 5400)))
  /\ state (run 64 s memory_excursion) = mode_select
  /\ map state (trace 64 s memory_excursion)
     = [memory_ready; memory_show; memory_show; memory_input;
        memory_game_over; mode_select]
  /\ score (titanic (run 64 s memory_excursion)) = 1.
Proof.
  intros g s.
  destruct (mode_switch_effects 64 g (key_m false 5300) K_r [])
    as (Habandon & _ & _ & Hrestart & _).
  destruct (mode_switch_effects 64 s (hold_down 5400) K_r memory_excursion)
    as (_ & Hbest & _ & _ & Hkeep & _ & _ & Htrip & _).
  destruct (mode_switch_effects 64 s (hold_up 5400) K_r [])
    as (_ & _ & _ & _ & _ & Hreset & _).
  split; [apply Habandon; reflexivity|].
  split; [destruct Hkeep as [-> _]; reflexivity|].
  split; [apply Hreset; reflexivity|].
  split; [apply Hrestart; reflexivity|].
  split; [exact Hbest|].
  split; [reflexivity|]. split; [reflexivity|].
  destruct Htrip as [_ ->]; [|reflexivity].
  vm_compute. repeat constructor.
Defined.

(** * Beyond the claims: sessions, geometry and drawing *)

(** ** Truncation *)

Lemma py_int_inject_Z (z : Z) : py_int (inject_Z z) = z.
Proof. unfold py_int. cbn. apply Z.quot_1_r. Qed.

Lemma py_int_nonneg (q : Q) : (0 <= q)%Q -> py_int q = Qfloor q.
Proof.
  destruct q as [n d]. unfold Qle, py_int, Qfloor. cbn. intros Hn.
  apply Z.quot_div_nonneg; lia.
Qed.

Lemma py_int_opp (q : Q) : py_int (- q) = - py_int q.
Proof. destruct q as [n d]. unfold py_int. cbn. apply Z.quot_opp_l. lia. Qed.

(** Truncation moves a value by less than one. *)
Lemma py_int_near (q : Q) :
  (q - 1 < inject_Z (py_int q))%Q /\ (inject_Z (py_int q) < q + 1)%Q.
Proof.
  destruct (Qlt_le_dec q 0) as [Hneg | Hpos].
  - assert (Hn : (0 <= - q)%Q) by lra.
    replace q with (- - q)%Q at 2 3
      by (destruct q as [n d]; unfold Qopp; cbn; rewrite Z.opp_involutive;
          reflexivity).
    rewrite py_int_opp, (py_int_nonneg _ Hn), inject_Z_opp.
    pose proof (Qfloor_le (- q)). pose proof (Qlt_floor (- q)) as H1.
    rewrite inject_Z_plus in H1. change (inject_Z 1) with 1%Q in H1.
    split; lra.
  - rewrite (py_int_nonneg _ Hpos).
    pose proof (Qfloor_le q). pose proof (Qlt_floor q) as H1.
    rewrite inject_Z_plus in H1. change (inject_Z 1) with 1%Q in H1.
    split; lra.
Qed.

(** Truncation keeps a value inside an interval with integer ends that
    contains zero or lies on one side of it. *)
Lemma py_int_between_nonneg (q : Q) (a b : Z) :
  0 <= a -> (inject_Z a <= q)%Q -> (q <= inject_Z b)%Q ->
  a <= py_int q <= b.
Proof.
  intros Ha Hlo Hhi.
  assert (Hq : (0 <= q)%Q).
  { apply Qle_trans with (inject_Z a); [|exact Hlo].
    change 0%Q with (inject_Z 0). rewrite <- Zle_Qle. exact Ha. }
  rewrite (py_int_nonneg q Hq). split.
  - rewrite <- (Qfloor_Z a). apply Qfloor_resp_le. exact Hlo.
  - rewrite <- (Qfloor_Z b). apply Qfloor_resp_le. exact Hhi.
Qed.

Lemma py_int_between_nonpos (q : Q) (a : Z) :
  (inject_Z a < q)%Q -> (q <= 0)%Q -> a < py_int q <= 0.
Proof.
  intros Hlo Hhi.
  assert (Hn : (0 <= - q)%Q) by lra.
  replace q with (- - q)%Q
    by (destruct q as [n d]; unfold Qopp; cbn; rewrite Z.opp_involutive;
        reflexivity).
  rewrite py_int_opp, (py_int_nonneg _ Hn).
  pose proof (Qfloor_le (- q)) as Hfl.
  assert (H0 : 0 <= Qfloor (- q)).
  { rewrite <- (Qfloor_Z 0). apply Qfloor_resp_le. exact Hn. }
  assert (Hlt : (inject_Z (Qfloor (- q)) < inject_Z (- a))%Q).
  { apply Qle_lt_trans with (- q)%Q; [exact Hfl|].
    rewrite inject_Z_opp. lra. }
  rewrite <- Zlt_Qlt in Hlt. lia.
Qed.

(** Linear and non-linear arithmetic over [Q] with halves written as
    divisions by two. *)
Ltac half_lra :=
  unfold Qdiv in *; change (/ 2)%Q with (1 # 2)%Q in *; lra.
Ltac half_nra :=
  unfold Qdiv in *; change (/ 2)%Q with (1 # 2)%Q in *; nra.

(** ** Generic preservation along ticks and runs *)

Lemma tick_preserves (P : Game -> Prop) (F : Frame -> Prop) (w : Z) :
  (forall g now e, P g -> P (handle_event w now g e)) ->
  (forall g f, F f -> P g -> P (logic w g f)) ->
  (forall g up down, P g -> P (set_prev g up down)) ->
  forall g f, F f -> P g -> P (tick w g f).
Proof.
  intros Hev Hlogic Hprev g f Hf Hg. unfold tick.
  apply Hprev, Hlogic; [exact Hf|].
  unfold handle_events. generalize (events f). intros es. revert g Hg.
  induction es as [|e es IH]; intros g Hg; cbn [fold_left]; [exact Hg|].
  apply IH, Hev, Hg.
Qed.

Lemma run_preserves (P : Game -> Prop) (F : Frame -> Prop) (w : Z) :
  (forall g f, F f -> P g -> P (tick w g f)) ->
  forall fs g, Forall F fs -> P g -> P (run w g fs).
Proof.
  intros Htick fs. induction fs as [|f fs IH]; intros g Hfs Hg; cbn [run].
  - exact Hg.
  - inversion Hfs as [|f' fs' Hf Hfs' E]; subst.
    destruct (running g); [|exact Hg].
    apply IH; [exact Hfs'|]. apply Htick; assumption.
Qed.

(** ** Titanic: what every state of a session satisfies *)

Lemma create_player_shape (w : Z) :
  Rect.w (Player.rect (create_player w)) = w
  /\ Rect.h (Player.rect (create_player w)) = 64
  /\ Rect.x (Player.rect (create_player w)) = WIDTH / 4 - Z.shiftr w 1
  /\ in_band (create_player w).
Proof.
  unfold in_band, create_player, Rect.top, Rect.bottom, Rect.set_centerx,
    Rect.set_centery.
  cbn [Player.rect Rect.x Rect.y Rect.w Rect.h].
  change (HEIGHT / 2 - Z.shiftr 64 1) with 238.
  unfold HEIGHT, PLAYER_MARGIN_TOP_BOTTOM. repeat split; lia.
Qed.

Lemma update_shape (p : Player.t) (up down : bool) (dt : Q) :
  Rect.w (Player.rect (Player.update p up down dt)) = Rect.w (Player.rect p)
  /\ Rect.x (Player.rect (Player.update p up down dt))
     = Rect.x (Player.rect p).
Proof.
  unfold Player.update, Player.clamp. cbn [Player.rect].
  destruct (Rect.top _ <? _); destruct (Rect.bottom _ >? _); cbn; auto.
Qed.

Lemma gap_of_level_range (score : Z) :
  148 <= gap_of_level (compute_level score) <= PIPE_GAP_BASE.
Proof.
  pose proof (compute_level_range score).
  unfold gap_of_level, PIPE_GAP_BASE. lia.
Qed.

Lemma spawn_interval_range (score : Z) :
  780 <= spawn_interval_ms_of_level (compute_level score)
  <= PIPE_SPAWN_BASE_MS.
Proof.
  pose proof (compute_level_range score).
  unfold spawn_interval_ms_of_level, PIPE_SPAWN_BASE_MS. lia.
Qed.

Lemma speed_of_level_pos (score : Z) :
  (4 <= speed_of_level (compute_level score))%Q.
Proof.
  pose proof (compute_level_range score) as Hr.
  unfold speed_of_level, PIPE_BASE_SPEED.
  assert (H : (0 <= inject_Z (compute_level score - 1))%Q).
  { change 0%Q with (inject_Z 0). rewrite <- Zle_Qle. lia. }
  nra.
Qed.

Lemma dt_of_nonneg (f : Frame) : 0 <= dt_ms f -> (0 <= dt_of f)%Q.
Proof.
  intros H. unfold dt_of.
  assert (Hq : (0 <= inject_Z (dt_ms f))%Q).
  { change 0%Q with (inject_Z 0). rewrite <- Zle_Qle. exact H. }
  apply Qle_shift_div_l; [reflexivity|]. lra.
Qed.

Lemma create_iceberg_pair_shape (gy gap : Z) (u : Q) :
  140 <= gy <= HEIGHT - 140 -> 148 <= gap <= PIPE_GAP_BASE ->
  (0 <= u <= 1)%Q ->
  pair_shape (create_iceberg_pair gy gap u).
Proof.
  intros Hgy Hgap [Hu0 Hu1]. unfold pair_shape, create_iceberg_pair.
  cbn [IcebergPair.width IcebergPair.gap IcebergPair.gap_y
       IcebergPair.star_y IcebergPair.x].
  change (inject_Z (STAR_SIZE / 2 + 8)) with 24%Q.
  assert (Hg : (148 <= inject_Z gap)%Q).
  { change 148%Q with (inject_Z 148). rewrite <- Zle_Qle. lia. }
  split; [reflexivity|]. split; [exact Hgap|].
  split; [exists gy; split; [reflexivity | exact Hgy]|].
  split; [|apply Qle_refl].
  destruct (Qle_bool _ _) eqn:E.
  - apply Qle_bool_iff in E. exfalso. half_lra.
  - eexists. split; [reflexivity|]. split; half_nra.
Qed.

Lemma update_pair_shape (ib : IcebergPair.t) (speed dt : Q) :
  (0 <= speed)%Q -> (0 <= dt)%Q ->
  pair_shape ib -> pair_shape (IcebergPair.update ib speed dt).
Proof.
  intros Hs Hd (Hw & Hg & Hgy & Hst & Hx). unfold pair_shape.
  cbn [IcebergPair.update IcebergPair.width IcebergPair.gap
       IcebergPair.gap_y IcebergPair.star_y IcebergPair.x].
  repeat (split; [assumption|]). nra.
Qed.

Lemma collect_star_ok (ib : IcebergPair.t) :
  pair_ok ib -> pair_ok (IcebergPair.collect_star ib).
Proof. intros H. exact H. Qed.

(** The star loop as a map and a count. *)
Lemma collect_stars_spec (p : Player.t) (ibs : list IcebergPair.t)
    (score : Z) :
  collect_stars p ibs score
  = (map (fun ib => if touches_star p ib then IcebergPair.collect_star ib
                    else ib) ibs,
     score + Z.of_nat (length (filter (touches_star p) ibs))).
Proof.
  unfold collect_stars.
  set (step := fun (acc : list IcebergPair.t * Z) ib =>
                 if touches_star p ib
                 then (fst acc ++ [IcebergPair.collect_star ib], snd acc + 1)
                 else (fst acc ++ [ib], snd acc)).
  set (mark := fun ib => if touches_star p ib
                         then IcebergPair.collect_star ib else ib).
  assert (H : forall l acc,
             fold_left step l acc
             = (fst acc ++ map mark l,
                snd acc + Z.of_nat (length (filter (touches_star p) l)))).
  { induction l as [|ib l IH]; intros [a s].
    - cbn. rewrite app_nil_r, Z.add_0_r. reflexivity.
    - cbn [fold_left]. rewrite IH. cbn [map filter].
      unfold step at 1 2; unfold mark at 2.
      destruct (touches_star p ib); cbn [fst snd length];
        rewrite <- app_assoc; cbn [app]; f_equal; lia. }
  rewrite H. reflexivity.
Qed.

Lemma field_ok (l : list IcebergPair.t) (speed dt : Q) :
  (0 <= speed)%Q -> (0 <= dt)%Q -> Forall pair_shape l ->
  Forall pair_ok
    (filter (fun ib => negb (IcebergPair.is_off_screen ib))
            (map (fun ib => IcebergPair.update ib speed dt) l)).
Proof.
  intros Hs Hd Hl. rewrite Forall_forall in *. intros ib Hin.
  apply filter_In in Hin. destruct Hin as [Hin Hoff].
  apply in_map_iff in Hin. destruct Hin as (ib0 & <- & Hin0).
  split.
  - apply update_pair_shape; auto.
  - apply negb_true_iff. exact Hoff.
Qed.

Lemma marked_ok (p : Player.t) (l : list IcebergPair.t) :
  Forall pair_ok l ->
  Forall pair_ok
    (map (fun ib => if touches_star p ib then IcebergPair.collect_star ib
                    else ib) l).
Proof.
  intros Hl. rewrite Forall_forall in *. intros ib Hin.
  apply in_map_iff in Hin. destruct Hin as (ib0 & <- & Hin0).
  destruct (touches_star p ib0); [apply collect_star_ok|]; auto.
Qed.

Lemma titanic_playing_tick_inv (w : Z) (t : Titanic) (f : Frame) :
  frame_ok f ->
  1 <= lives_left t <= INITIAL_LIVES -> 0 <= score t ->
  Rect.w (Player.rect (player t)) = w ->
  Rect.h (Player.rect (player t)) = 64 ->
  Rect.x (Player.rect (player t)) = WIDTH / 4 - Z.shiftr w 1 ->
  Forall pair_ok (icebergs t) ->
  let r := titanic_playing_tick w t f in
  (snd r = titanic_playing /\ 1 <= lives_left (fst r) <= INITIAL_LIVES
   \/ snd r = titanic_game_over /\ lives_left (fst r) = 0)
  /\ score t <= score (fst r)
  /\ Rect.w (Player.rect (player (fst r))) = w
  /\ Rect.h (Player.rect (player (fst r))) = 64
  /\ Rect.x (Player.rect (player (fst r))) = WIDTH / 4 - Z.shiftr w 1
  /\ in_band (player (fst r))
  /\ Forall pair_ok (icebergs (fst r)).
Proof.
  intros (Hdt & Hgy & Hu) Hl Hs Hw Hh Hx Hibs. unfold titanic_playing_tick.
  set (p' := Player.update (player t) (move_up f) (move_down f) (dt_of f)).
  assert (Hshape : Rect.w (Player.rect p') = w
                   /\ Rect.h (Player.rect p') = 64
                   /\ Rect.x (Player.rect p') = WIDTH / 4 - Z.shiftr w 1
                   /\ in_band p').
  { unfold p'. destruct (update_shape (player t) (move_up f) (move_down f)
                           (dt_of f)) as [-> ->].
    rewrite update_h. repeat split; try assumption.
    - apply update_in_band. rewrite Hh. vm_compute. discriminate.
    - apply update_in_band. rewrite Hh. vm_compute. discriminate. }
  assert (Hfield : Forall pair_shape
                     (if ticks f >=? next_spawn t
                      then icebergs t
                           ++ [create_iceberg_pair (rand_gap_y f)
                                 (gap_of_level (compute_level (score t)))
                                 (rand_unit f)]
                      else icebergs t)).
  { assert (Hold : Forall pair_shape (icebergs t))
      by (apply Forall_impl with (2 := Hibs); intros ib [H _]; exact H).
    destruct (ticks f >=? next_spawn t); [|exact Hold].
    apply Forall_app. split; [exact Hold|]. constructor; [|constructor].
    apply create_iceberg_pair_shape; auto using gap_of_level_range. }
  assert (Hspeed : (0 <= speed_of_level (compute_level (score t)))%Q).
  { pose proof (speed_of_level_pos (score t)). lra. }
  pose proof (dt_of_nonneg f Hdt) as Hd.
  destruct (ticks f >=? next_spawn t);
    cbv beta iota zeta;
    (match goal with
     | |- context [filter ?P (map ?F ?L)] =>
         pose proof (field_ok L _ _ Hspeed Hd Hfield) as Hok;
         set (field := filter P (map F L)) in *
     end);
    (destruct (hit_test p' field);
     [destruct (lives_left t - 1 <=? 0) eqn:El;
      [apply Z.leb_le in El | apply Z.leb_gt in El];
      cbn [fst snd lives_left score player icebergs]
     | rewrite collect_stars_spec;
       cbn [fst snd lives_left score player icebergs]]).
  all: try (split; [first [left; split; [reflexivity | lia]
                          | right; split; [reflexivity | lia]]|]).
  all: try (split; [lia|]).
  all: try solve [destruct Hshape as (? & ? & ? & ?);
                  repeat (split; [assumption|]); assumption].
  all: try solve [repeat (split; [apply create_player_shape|]); constructor].
  all: destruct Hshape as (? & ? & ? & ?);
    repeat (split; [assumption|]); apply marked_ok; assumption.
Qed.

(** Hypotheses and goals guarded by a test on a concrete state. *)
Ltac use_state :=
  repeat match goal with
    | H : ?a = ?a \/ _ -> _ |- _ => specialize (H (or_introl eq_refl))
    | H : _ \/ ?a = ?a -> _ |- _ => specialize (H (or_intror eq_refl))
    | H : ?a = ?a -> _ |- _ => specialize (H eq_refl)
    end.

Ltac state_goal :=
  try (intros [E | E]; discriminate E);
  try (intros E; discriminate E);
  try (intros _).

Lemma reset_titanic_inv (w now : Z) (m : Memory) (s : State)
    (pu pd r : bool) :
  s <> titanic_game_over ->
  titanic_inv w (mkGame (reset_titanic w now) m s pu pd r).
Proof.
  intros Hs. unfold titanic_inv, reset_titanic, INITIAL_LIVES.
  cbn [titanic state lives_left score player icebergs].
  destruct (create_player_shape w) as (Hw & Hh & Hx & Hb).
  split; [lia|]. split; [intros _; lia|].
  split; [intros E; contradiction|]. split; [lia|].
  repeat (split; [assumption|]). constructor.
Qed.

Lemma handle_event_titanic_inv (w now : Z) (g : Game) (e : Event) :
  titanic_inv w g -> titanic_inv w (handle_event w now g e).
Proof.
  destruct g as [t m s pu pd r]. intros H.
  destruct e as [|k|]; [exact H | | exact H].
  destruct k, s; cbn; try exact H;
    try (apply reset_titanic_inv; discriminate);
    unfold titanic_inv in *; cbn [titanic state] in *;
    destruct H as (H1 & H2 & H3 & H4 & H5);
    (split; [exact H1|]); (split; [state_goal|]); (split; [state_goal|]);
    exact (conj H4 H5).
Qed.

Lemma logic_titanic_inv (w : Z) (g : Game) (f : Frame) :
  frame_ok f -> titanic_inv w g -> titanic_inv w (logic w g f).
Proof.
  destruct g as [t m s pu pd r]. intros Hf H. unfold logic.
  cbn [state titanic memory].
  destruct s.
  - destruct (move_up f); [apply reset_titanic_inv; discriminate|].
    destruct (move_down f); [|exact H].
    unfold titanic_inv in *; cbn [titanic state set_state set_memory] in *.
    destruct H as (H1 & H2 & H3 & H4 & H5).
    (split; [exact H1|]); (split; [state_goal|]); (split; [state_goal|]).
    exact (conj H4 H5).
  - destruct (_ || _ || _); [|exact H].
    unfold titanic_inv in *; cbn [titanic state set_state] in *.
    destruct H as (H1 & H2 & H3 & H4 & H5). use_state.
    (split; [exact H1|]); (split; [intros _; exact H2|]);
      (split; [state_goal|]).
    exact (conj H4 H5).
  - unfold titanic_inv in H; cbn [titanic state] in H.
    destruct H as (H1 & H2 & _ & H4 & H5 & H6 & H7 & _ & H9). use_state.
    pose proof (titanic_playing_tick_inv w t f Hf (conj H2 (proj2 H1)) H4 H5
                  H6 H7 H9) as Ht.
    cbv zeta in Ht. destruct (titanic_playing_tick w t f) as [t' s'].
    cbn [fst snd] in Ht.
    destruct Ht as (Hst & Hsc & Hw & Hh & Hx & Hb & Hibs).
    unfold titanic_inv.
    cbn [titanic state set_state set_titanic lives_left].
    assert (Hl : 0 <= lives_left t' <= INITIAL_LIVES)
      by (unfold INITIAL_LIVES in *; destruct Hst as [[_ ?] | [_ ?]]; lia).
    split; [exact Hl|].
    split; [destruct Hst as [[_ ?] | [-> _]]; [intros _; lia | state_goal]|].
    split; [destruct Hst as [[-> _] | [_ ?]]; [state_goal | intros _; lia]|].
    split; [lia|]. repeat (split; [assumption|]). assumption.
  - exact H.
  - destruct (memory_ready_tick m f) as [m' s'] eqn:E.
    unfold memory_ready_tick in E. injection E as <- <-.
    unfold titanic_inv in *; cbn [titanic state set_state set_memory] in *.
    destruct H as (H1 & H2 & H3 & H4 & H5).
    (split; [exact H1|]); (split; [state_goal|]); (split; [state_goal|]).
    exact (conj H4 H5).
  - assert (Hs : snd (memory_show_tick m f) = memory_show
                 \/ snd (memory_show_tick m f) = memory_input).
    { unfold memory_show_tick.
      destruct (mem_showing_arrow m);
        [destruct (_ >=? _)
        | destruct (_ >=? _); [destruct (_ <=? _)%nat|]]; cbn; auto. }
    destruct (memory_show_tick m f) as [m' s']. cbn [snd] in Hs.
    unfold titanic_inv in *; cbn [titanic state set_state set_memory] in *.
    destruct H as (H1 & H2 & H3 & H4 & H5).
    (split; [exact H1|]).
    split; [intros [E | E]; destruct Hs as [Hs | Hs]; congruence|].
    split; [intros E; destruct Hs as [Hs | Hs]; congruence|].
    exact (conj H4 H5).
  - assert (Hs : snd (memory_input_tick m (ticks f)
                        (pressed_up (mkGame t m memory_input pu pd r) f)
                        (pressed_down (mkGame t m memory_input pu pd r) f))
                 <> titanic_menu
                 /\ snd (memory_input_tick m (ticks f)
                        (pressed_up (mkGame t m memory_input pu pd r) f)
                        (pressed_down (mkGame t m memory_input pu pd r) f))
                    <> titanic_playing
                 /\ snd (memory_input_tick m (ticks f)
                        (pressed_up (mkGame t m memory_input pu pd r) f)
                        (pressed_down (mkGame t m memory_input pu pd r) f))
                    <> titanic_game_over).
    { unfold memory_input_tick.
      destruct (input_step _ _ _ _);
        [destruct (_ <=? _)%nat; [destruct (mismatch _ _)|]|];
        cbn; repeat split; discriminate. }
    destruct (memory_input_tick _ _ _ _) as [m' s']. cbn [snd] in Hs.
    destruct Hs as (Hs1 & Hs2 & Hs3).
    unfold titanic_inv in *; cbn [titanic state set_state set_memory] in *.
    destruct H as (H1 & H2 & H3 & H4 & H5).
    (split; [exact H1|]).
    split; [intros [E | E]; congruence|].
    split; [intros E; congruence|].
    exact (conj H4 H5).
  - unfold memory_success_tick. destruct (_ >=? _);
      unfold titanic_inv in *; cbn [titanic state set_state] in *;
      destruct H as (H1 & H2 & H3 & H4 & H5);
      (split; [exact H1|]); (split; [state_goal|]); (split; [state_goal|]);
      exact (conj H4 H5).
  - exact H.
Qed.

Lemma tick_titanic_inv (w : Z) (g : Game) (f : Frame) :
  frame_ok f -> titanic_inv w g -> titanic_inv w (tick w g f).
Proof.
  apply (tick_preserves (titanic_inv w) frame_ok w).
  - intros; apply handle_event_titanic_inv; assumption.
  - intros; apply logic_titanic_inv; assumption.
  - intros g' up down H. exact H.
Qed.

Lemma session_titanic_inv (w now : Z) (fs : list Frame) :
  Forall frame_ok fs -> titanic_inv w (run w (initial_game w now) fs).
Proof.
  intros Hfs. apply (run_preserves (titanic_inv w) frame_ok w).
  - apply tick_titanic_inv.
  - exact Hfs.
  - apply reset_titanic_inv. discriminate.
Qed.

Lemma session_frames_ok : Forall frame_ok session_round_trip.
Proof.
  repeat constructor; cbn; try lia; try discriminate.
Qed.

(** X1. In every state a session can reach, the lives are between 0 and 3
    and the score is not negative; while Titanic is in its menu or being
    played at least one life is left, and when it is over none is. *)
Theorem session_lives (w now : Z) (fs : list Frame) :
  Forall frame_ok fs ->
  let g := run w (initial_game w now) fs in
  0 <= lives_left (titanic g) <= INITIAL_LIVES
  /\ 0 <= score (titanic g)
  /\ (state g = titanic_menu \/ state g = titanic_playing ->
      1 <= lives_left (titanic g))
  /\ (state g = titanic_game_over -> lives_left (titanic g) = 0).
Proof.
  intros Hfs g.
  destruct (session_titanic_inv w now fs Hfs) as (H1 & H2 & H3 & H4 & _).
  auto.
Qed.

Lemma session_lives_witness :
  let g := run 64 (initial_game 64 0) session_round_trip in
  0 <= lives_left (titanic g) <= INITIAL_LIVES
  /\ 0 <= score (titanic g)
  /\ (state g = titanic_menu \/ state g = titanic_playing ->
      1 <= lives_left (titanic g))
  /\ (state g = titanic_game_over -> lives_left (titanic g) = 0).
Proof. apply session_lives. exact session_frames_ok. Defined.

(** X2. In every state a session can reach, the avatar has the size the
    ship was scaled to, stands at the horizontal position [create_player]
    gave it, and lies within the band between the margins: [update] moves
    it vertically only. *)
Theorem session_avatar (w now : Z) (fs : list Frame) :
  Forall frame_ok fs ->
  let r := Player.rect (player (titanic (run w (initial_game w now) fs))) in
  Rect.w r = w /\ Rect.h r = 64
  /\ Rect.x r = Rect.x (Player.rect (create_player w))
  /\ PLAYER_MARGIN_TOP_BOTTOM <= Rect.top r
  /\ Rect.bottom r <= HEIGHT - PLAYER_MARGIN_TOP_BOTTOM.
Proof.
  intros Hfs r.
  destruct (session_titanic_inv w now fs Hfs)
    as (_ & _ & _ & _ & Hw & Hh & Hx & [Ht Hb] & _).
  repeat split; assumption.
Qed.

Lemma session_avatar_witness :
  let r :=
    Player.rect (player (titanic (run 64 (initial_game 64 0)
                                      session_round_trip))) in
  Rect.w r = 64 /\ Rect.h r = 64
  /\ Rect.x r = Rect.x (Player.rect (create_player 64))
  /\ PLAYER_MARGIN_TOP_BOTTOM <= Rect.top r
  /\ Rect.bottom r <= HEIGHT - PLAYER_MARGIN_TOP_BOTTOM.
Proof. apply session_avatar. exact session_frames_ok. Defined.

Lemma pair_rects_heights (ib : IcebergPair.t) :
  pair_shape ib ->
  30 <= Rect.h (fst (IcebergPair.rects ib)) <= HEIGHT - 140 - 74
  /\ 30 <= Rect.h (snd (IcebergPair.rects ib))
  /\ Rect.bottom (snd (IcebergPair.rects ib)) = HEIGHT.
Proof.
  intros (_ & Hg & (gy & Egy & Hgy) & _).
  unfold IcebergPair.rects, Rect.bottom.
  cbn [fst snd Rect.h Rect.y]. rewrite Egy.
  unfold HEIGHT, PIPE_GAP_BASE in *.
  assert (Hg1 : (148 <= inject_Z (IcebergPair.gap ib))%Q)
    by (change 148%Q with (inject_Z 148); rewrite <- Zle_Qle; lia).
  assert (Hg2 : (inject_Z (IcebergPair.gap ib) <= 220)%Q)
    by (change 220%Q with (inject_Z 220); rewrite <- Zle_Qle; lia).
  assert (Hy1 : (140 <= inject_Z gy)%Q)
    by (change 140%Q with (inject_Z 140); rewrite <- Zle_Qle; lia).
  assert (Hy2 : (inject_Z gy <= 400)%Q)
    by (change 400%Q with (inject_Z 400); rewrite <- Zle_Qle; lia).
  pose proof (py_int_between_nonneg
                (inject_Z gy - inject_Z (IcebergPair.gap ib) / 2) 30 326)
    as Ht.
  pose proof (py_int_between_nonneg
                (inject_Z gy + inject_Z (IcebergPair.gap ib) / 2) 214 510)
    as Hb.
  change (inject_Z 30) with 30%Q in Ht. change (inject_Z 326) with 326%Q in Ht.
  change (inject_Z 214) with 214%Q in Hb.
  change (inject_Z 510) with 510%Q in Hb.
  assert (30 <= py_int (inject_Z gy - inject_Z (IcebergPair.gap ib) / 2)
          <= 326) by (apply Ht; [lia | half_lra | half_lra]).
  assert (214 <= py_int (inject_Z gy + inject_Z (IcebergPair.gap ib) / 2)
          <= 510) by (apply Hb; [lia | half_lra | half_lra]).
  lia.
Qed.

(** X3. Every pair on the field of a reachable state has the nominal width
    120 and a gap between 148 and 220, has not left the screen, and keeps a
    star whose centre is at least 24 pixels inside the gap; its top and
    bottom icebergs are both at least 30 pixels high and the bottom one
    ends at the bottom of the screen. *)
Theorem session_pairs (w now : Z) (fs : list Frame) :
  Forall frame_ok fs ->
  Forall (fun ib =>
            pair_ok ib
            /\ 30 <= Rect.h (fst (IcebergPair.rects ib))
            /\ 30 <= Rect.h (snd (IcebergPair.rects ib))
            /\ Rect.bottom (snd (IcebergPair.rects ib)) = HEIGHT)
         (icebergs (titanic (run w (initial_game w now) fs))).
Proof.
  intros Hfs.
  destruct (session_titanic_inv w now fs Hfs)
    as (_ & _ & _ & _ & _ & _ & _ & _ & Hibs).
  apply Forall_impl with (2 := Hibs). intros ib Hok.
  split; [exact Hok|].
  destruct (pair_rects_heights ib (proj1 Hok)) as ([H1 _] & H2 & H3). auto.
Qed.

Lemma session_pairs_witness :
  Forall (fun ib =>
            pair_ok ib
            /\ 30 <= Rect.h (fst (IcebergPair.rects ib))
            /\ 30 <= Rect.h (snd (IcebergPair.rects ib))
            /\ Rect.bottom (snd (IcebergPair.rects ib)) = HEIGHT)
         (icebergs (titanic (run 64 (initial_game 64 0) session_played))).
Proof.
  apply session_pairs.
  repeat constructor; cbn; try lia; try discriminate.
Defined.

(** ** Titanic: single ticks *)

(** X4. On a playing tick with no pair on the field and none due yet, as
    during the second after a respawn, nothing can hit the avatar: the
    tick only moves it, and lives, score, field and spawn time stay as
    they are. *)
Theorem empty_field_is_safe (w : Z) (t : Titanic) (f : Frame) :
  Rect.h (Player.rect (player t)) <= HEIGHT - 2 * PLAYER_MARGIN_TOP_BOTTOM ->
  icebergs t = [] -> ticks f < next_spawn t ->
  titanic_playing_tick w t f
  = (mkTitanic (Player.update (player t) (move_up f) (move_down f) (dt_of f))
               [] (score t) (next_spawn t) (lives_left t),
     titanic_playing).
Proof.
  intros Hh Hibs Hnow. unfold titanic_playing_tick.
  assert (E : (ticks f >=? next_spawn t) = false)
    by (rewrite Z.geb_leb; apply Z.leb_gt; exact Hnow).
  rewrite E, Hibs. cbn [map filter].
  rewrite hit_test_in_band by (apply update_in_band; exact Hh).
  reflexivity.
Qed.

Lemma empty_field_is_safe_witness :
  let t := fst (titanic_playing_tick 64 (mkTitanic resting_player
                                           [pair_at 1000] 0 9000 2)
                                     (crash 5000)) in
  icebergs t = [] /\ lives_left t = 1
  /\ lives_left (fst (titanic_playing_tick 64 t (hold_up 5999))) = 1
  /\ snd (titanic_playing_tick 64 t (hold_up 5999)) = titanic_playing.
Proof.
  intros t.
  assert (H : titanic_playing_tick 64 t (hold_up 5999)
              = (mkTitanic (Player.update (player t) (move_up (hold_up 5999))
                              (move_down (hold_up 5999))
                              (dt_of (hold_up 5999)))
                           [] (score t) (next_spawn t) (lives_left t),
                 titanic_playing)).
  { apply empty_field_is_safe.
    - vm_compute. discriminate.
    - reflexivity.
    - vm_compute. reflexivity. }
  rewrite H. repeat split; reflexivity.
Defined.

Lemma touches_star_collected (p : Player.t) (ib : IcebergPair.t) :
  IcebergPair.star_collected ib = true -> touches_star p ib = false.
Proof.
  intros H. unfold touches_star, IcebergPair.star_rect. rewrite H.
  destruct (IcebergPair.star_y ib); reflexivity.
Qed.

Lemma filter_none (A : Type) (P : A -> bool) (l : list A) :
  (forall x, In x l -> P x = false) -> filter P l = [].
Proof.
  induction l as [|a l IH]; intros H; [reflexivity|]. cbn.
  rewrite (H a (or_introl eq_refl)). apply IH.
  intros x Hx. apply H. right. exact Hx.
Qed.

(** X5. A star is counted once.  The star loop adds exactly one point for
    every pair whose uncollected star the avatar's rect touches, marks
    exactly those pairs as collected and leaves the others and the order of
    the field as they are; so the score grows by between 0 and the number
    of pairs.  Run again on its own result the loop changes nothing, and a
    pair whose star was collected is not touched again wherever the avatar
    is and however far the pair has moved. *)
Theorem star_counted_once (p : Player.t) (ibs : list IcebergPair.t)
    (score score' : Z) :
  let r := collect_stars p ibs score in
  snd r = score + Z.of_nat (length (filter (touches_star p) ibs))
  /\ fst r = map (fun ib => if touches_star p ib
                            then IcebergPair.collect_star ib else ib) ibs
  /\ score <= snd r <= score + Z.of_nat (length ibs)
  /\ length (fst r) = length ibs
  /\ collect_stars p (fst r) score' = (fst r, score')
  /\ (forall ib p' speed dt,
        touches_star p' (IcebergPair.update (IcebergPair.collect_star ib)
                                            speed dt) = false).
Proof.
  cbv zeta. rewrite collect_stars_spec. cbn [fst snd].
  split; [reflexivity|]. split; [reflexivity|].
  split; [|split; [|split]].
  - pose proof (filter_length_le (touches_star p) ibs). lia.
  - apply length_map.
  - rewrite collect_stars_spec. f_equal.
    + rewrite map_map. apply map_ext. intros ib.
      destruct (touches_star p ib) eqn:E.
      * rewrite touches_star_collected by reflexivity. reflexivity.
      * rewrite E. reflexivity.
    + rewrite filter_none; [cbn; lia|]. intros ib Hin.
      apply in_map_iff in Hin. destruct Hin as (ib0 & <- & _).
      destruct (touches_star p ib0) eqn:E.
      * rewrite touches_star_collected by reflexivity. reflexivity.
      * rewrite E. reflexivity.
  - intros ib p' speed dt. apply touches_star_collected. reflexivity.
Qed.

(** A star under the resting avatar is worth one point, a star elsewhere
    none. *)
Example touched_star_is_one_point :
  let near := IcebergPair.mk 180 270 PIPE_WIDTH 220 false (Some 270%Q) false in
  let far := IcebergPair.mk 600 270 PIPE_WIDTH 220 false (Some 270%Q) false in
  collect_stars resting_player [far; near] 4
  = ([far; IcebergPair.collect_star near], 5).
Proof. reflexivity. Qed.

Lemma colliderect_true (a b : Rect.t) :
  Rect.colliderect a b = true <->
  Rect.w a <> 0 /\ Rect.h a <> 0 /\ Rect.w b <> 0 /\ Rect.h b <> 0
  /\ Z.min (Rect.x a) (Rect.x a + Rect.w a)
     < Z.max (Rect.x b) (Rect.x b + Rect.w b)
  /\ Z.min (Rect.y a) (Rect.y a + Rect.h a)
     < Z.max (Rect.y b) (Rect.y b + Rect.h b)
  /\ Z.min (Rect.x b) (Rect.x b + Rect.w b)
     < Z.max (Rect.x a) (Rect.x a + Rect.w a)
  /\ Z.min (Rect.y b) (Rect.y b + Rect.h b)
     < Z.max (Rect.y a) (Rect.y a + Rect.h a).
Proof.
  unfold Rect.colliderect.
  destruct (Rect.w a =? 0) eqn:E1; [apply Z.eqb_eq in E1; cbn; intuition lia|].
  destruct (Rect.h a =? 0) eqn:E2; [apply Z.eqb_eq in E2; cbn; intuition lia|].
  destruct (Rect.w b =? 0) eqn:E3; [apply Z.eqb_eq in E3; cbn; intuition lia|].
  destruct (Rect.h b =? 0) eqn:E4; [apply Z.eqb_eq in E4; cbn; intuition lia|].
  apply Z.eqb_neq in E1, E2, E3, E4. cbn [orb].
  rewrite !andb_true_iff, !Z.ltb_lt, !Z.gtb_ltb, !Z.ltb_lt. intuition lia.
Qed.

(** The collision rect of the avatar against a slit: if they collide, so
    do the avatar's full rect and the drawn rect the slit was cut from. *)
Lemma slit_hit_is_visible (r full : Rect.t) :
  0 <= Rect.w r -> 0 <= Rect.h r -> Rect.w full = PIPE_WIDTH ->
  Rect.colliderect (shrunk_spec r) (slit_spec full) = true ->
  Rect.colliderect r full = true.
Proof.
  intros Hw Hh Hf. rewrite !colliderect_true.
  unfold shrunk_spec, slit_spec. rewrite Hf. unfold PIPE_WIDTH.
  cbn [Rect.x Rect.y Rect.w Rect.h].
  change (120 / 100) with 1. change ((120 - 1) / 2) with 59.
  intros H. Z.to_euclidean_division_equations. lia.
Qed.

(** X6. No phantom hits: whenever the collision loop reports a hit, the
    avatar's full rect overlaps the drawn top or bottom iceberg of some pair
    on the field.  The narrowed hitboxes only ever forgive. *)
Theorem hit_is_visible (p : Player.t) (ibs : list IcebergPair.t) :
  0 <= Rect.w (Player.rect p) -> 0 <= Rect.h (Player.rect p) ->
  Forall (fun ib => IcebergPair.width ib = PIPE_WIDTH) ibs ->
  iceberg_collision p ibs = true ->
  exists ib, In ib ibs
    /\ (Rect.colliderect (Player.rect p) (fst (IcebergPair.rects ib)) = true
        \/ Rect.colliderect (Player.rect p) (snd (IcebergPair.rects ib))
           = true).
Proof.
  intros Hw Hh Hall Hhit. unfold iceberg_collision in Hhit.
  apply existsb_exists in Hhit. destruct Hhit as (ib & Hin & Hc).
  rewrite Forall_forall in Hall. specialize (Hall ib Hin).
  exists ib. split; [exact Hin|].
  unfold hits_iceberg in Hc. rewrite (collision_rects_slits ib Hall) in Hc.
  rewrite (collision_rect_shrunk p Hw Hh) in Hc.
  apply orb_true_iff in Hc.
  destruct Hc as [Hc | Hc]; [left | right];
    (apply slit_hit_is_visible; [exact Hw | exact Hh | | exact Hc]);
    unfold IcebergPair.rects; cbn [fst snd Rect.w]; exact Hall.
Qed.

Lemma hit_is_visible_witness :
  exists ib, In ib [pair_at 180]
    /\ (Rect.colliderect (Player.rect resting_player)
                         (fst (IcebergPair.rects ib)) = true
        \/ Rect.colliderect (Player.rect resting_player)
                            (snd (IcebergPair.rects ib)) = true).
Proof.
  apply hit_is_visible.
  - vm_compute. discriminate.
  - vm_compute. discriminate.
  - repeat constructor.
  - reflexivity.
Defined.

(** X7. Difficulty only rises with the score: the gap and the spawn
    interval never grow, the speed never drops.  Over all scores the gap
    stays within [148, 220], the interval within [780, 1500] and the speed
    within [4, 8.05]: with the level capped at 10 the floors 140 and 700 of
    the two [max] expressions are never reached. *)
Theorem difficulty_rises_with_score (s1 s2 : Z) :
  s1 <= s2 ->
  let l1 := compute_level s1 in
  let l2 := compute_level s2 in
  gap_of_level l2 <= gap_of_level l1
  /\ spawn_interval_ms_of_level l2 <= spawn_interval_ms_of_level l1
  /\ (speed_of_level l1 <= speed_of_level l2)%Q
  /\ gap_of_level l1 = PIPE_GAP_BASE - (l1 - 1) * 8
  /\ spawn_interval_ms_of_level l1 = PIPE_SPAWN_BASE_MS - (l1 - 1) * 80
  /\ 148 <= gap_of_level l1 <= 220
  /\ 780 <= spawn_interval_ms_of_level l1 <= 1500
  /\ (4 <= speed_of_level l1 <= 805 # 100)%Q.
Proof.
  intros Hle l1 l2.
  pose proof (compute_level_mono s1 s2 Hle) as Hm. fold l1 l2 in Hm.
  pose proof (compute_level_range s1) as H1. fold l1 in H1.
  pose proof (compute_level_range s2) as H2. fold l2 in H2.
  assert (Hq1 : (0 <= inject_Z (l1 - 1))%Q)
    by (change 0%Q with (inject_Z 0); rewrite <- Zle_Qle; lia).
  assert (Hq2 : (inject_Z (l1 - 1) <= inject_Z (l2 - 1))%Q)
    by (rewrite <- Zle_Qle; lia).
  assert (Hq3 : (inject_Z (l1 - 1) <= 9)%Q)
    by (change 9%Q with (inject_Z 9); rewrite <- Zle_Qle; lia).
  unfold gap_of_level, spawn_interval_ms_of_level, speed_of_level,
    PIPE_GAP_BASE, PIPE_SPAWN_BASE_MS, PIPE_BASE_SPEED.
  repeat split; try lia; lra.
Qed.

Lemma difficulty_rises_with_score_witness :
  gap_of_level (compute_level 23) <= gap_of_level (compute_level 4)
  /\ (speed_of_level (compute_level 4)
      <= speed_of_level (compute_level 23))%Q.
Proof.
  destruct (difficulty_rises_with_score 4 23) as (H1 & _ & H3 & _); [lia|].
  split; assumption.
Defined.

(** ** Avatar motion *)

(** [round] returns an integer within one half of its argument. *)
Lemma py_round_near (q : Q) :
  (q - (1 # 2) <= inject_Z (py_round q) <= q + (1 # 2))%Q.
Proof.
  unfold py_round.
  pose proof (Qfloor_le q) as Hlo. pose proof (Qlt_floor q) as Hhi.
  rewrite inject_Z_plus in Hhi. change (inject_Z 1) with 1%Q in Hhi.
  destruct (Qcompare_spec (q - inject_Z (Qfloor q)) (1 # 2)) as [E | E | E].
  - destruct (Z.even (Qfloor q)); [|rewrite inject_Z_plus;
                                     change (inject_Z 1) with 1%Q]; lra.
  - lra.
  - rewrite inject_Z_plus. change (inject_Z 1) with 1%Q. lra.
Qed.

Lemma py_round_sign (q : Q) :
  ((q <= 0)%Q -> py_round q <= 0) /\ ((0 <= q)%Q -> 0 <= py_round q).
Proof.
  pose proof (py_round_near q) as [Hlo Hhi]. split; intros Hq.
  - assert (H : (inject_Z (py_round q) < inject_Z 1)%Q)
      by (change (inject_Z 1) with 1%Q; lra).
    rewrite <- Zlt_Qlt in H. lia.
  - assert (H : (inject_Z (-1) < inject_Z (py_round q))%Q)
      by (change (inject_Z (-1)) with (-1)%Q; lra).
    rewrite <- Zlt_Qlt in H. lia.
Qed.

Lemma py_round_zero (q : Q) : q == 0 -> py_round q = 0.
Proof.
  intros Hq. destruct (py_round_sign q) as [H1 H2].
  assert (py_round q <= 0) by (apply H1; lra).
  assert (0 <= py_round q) by (apply H2; lra).
  lia.
Qed.

Lemma clamp_in_band_id (r : Rect.t) :
  PLAYER_MARGIN_TOP_BOTTOM <= Rect.top r ->
  Rect.bottom r <= HEIGHT - PLAYER_MARGIN_TOP_BOTTOM ->
  Player.clamp r = r.
Proof.
  intros Ht Hb. unfold Player.clamp.
  destruct (Rect.top r <? _) eqn:E1; [apply Z.ltb_lt in E1; lia|].
  destruct (Rect.bottom r >? _) eqn:E2; [|reflexivity].
  rewrite Z.gtb_ltb in E2. apply Z.ltb_lt in E2. lia.
Qed.

(** X8. For an avatar inside the band and a non-negative [dt]: with both
    flags or neither [update] leaves it where it is; with up it never moves
    down, and with down alone never up.  These depend on the sign of [dy]
    only, which the rounding of the float product does not change; nothing
    is said here about the size of the step. *)
Theorem avatar_motion (p : Player.t) (up down : bool) (dt : Q) :
  in_band p -> (0 <= dt)%Q ->
  let p' := Player.update p up down dt in
  let moved := Rect.top (Player.rect p') - Rect.top (Player.rect p) in
  (up = down -> p' = p)
  /\ (up = true -> moved <= 0)
  /\ (down = true -> up = false -> 0 <= moved)
  /\ Rect.x (Player.rect p') = Rect.x (Player.rect p).
Proof.
  intros [Ht Hb] Hdt p' moved.
  assert (Hdy : (up = down -> Player.dy up down dt == 0)
                /\ (up = true -> Player.dy up down dt <= 0)%Q
                /\ (down = true -> up = false -> 0 <= Player.dy up down dt)%Q).
  { unfold Player.dy, PLAYER_SPEED. destruct up, down; (split; [|split]).
    all: repeat match goal with |- _ = _ -> _ => intro end.
    all: try discriminate; lra. }
  destruct Hdy as (Hz & Hu & Hd).
  set (d := py_round (Player.dy up down dt)) in *.
  pose proof (py_round_sign (Player.dy up down dt)) as [Hs1 Hs2].
  fold d in Hs1, Hs2.
  assert (Hmoved : (d <= 0 -> d <= moved <= 0) /\ (0 <= d -> 0 <= moved <= d)).
  { unfold moved, p', Player.update, Player.clamp. fold d.
    unfold Rect.top, Rect.bottom, Rect.set_top, Rect.set_bottom,
      Rect.move_y, HEIGHT, PLAYER_MARGIN_TOP_BOTTOM in *.
    destruct p as [[x y w h]]. cbn [Player.rect Rect.x Rect.y Rect.w Rect.h] in *.
    destruct (y + d <? 20) eqn:E1; cbn [Rect.x Rect.y Rect.w Rect.h];
      [apply Z.ltb_lt in E1 | apply Z.ltb_ge in E1];
      (destruct (_ >? _) eqn:E2; rewrite Z.gtb_ltb in E2;
       [apply Z.ltb_lt in E2 | apply Z.ltb_ge in E2]);
      cbn [Rect.x Rect.y Rect.w Rect.h]; lia. }
  destruct Hmoved as [Hm1 Hm2].
  split; [|split; [|split]].
  - intros E. unfold p', Player.update. fold d.
    assert (Hd0 : d = 0) by (apply py_round_zero, Hz, E).
    rewrite Hd0. destruct p as [[x y w h]]. unfold Rect.move_y.
    cbn [Player.rect Rect.x Rect.y Rect.w Rect.h] in *. rewrite Z.add_0_r.
    rewrite clamp_in_band_id; [reflexivity | exact Ht | exact Hb].
  - intros E. apply Hm1, Hs1, Hu, E.
  - intros E E'. apply Hm2, Hs2, Hd; assumption.
  - apply update_shape.
Qed.

Lemma avatar_motion_witness :
  let p' := Player.update resting_player true false (102 # 100) in
  Rect.top (Player.rect p') - Rect.top (Player.rect resting_player) <= 0
  /\ Player.update resting_player true true (102 # 100) = resting_player.
Proof.
  destruct (avatar_motion resting_player true false (102 # 100))
    as (_ & Hup & _).
  - apply create_player_shape.
  - discriminate.
  - destruct (avatar_motion resting_player true true (102 # 100))
      as (Hsame & _).
    + apply create_player_shape.
    + discriminate.
    + split; [apply Hup; reflexivity | apply Hsame; reflexivity].
Defined.

(** ** Leaving the loop *)

Lemma running_handle_event (w now : Z) (g : Game) (e : Event) :
  running (handle_event w now g e) = running g && negb (stops e).
Proof.
  destruct g as [t m s pu pd r].
  destruct e as [|k|]; cbn; [apply eq_sym, andb_false_r | |
                             apply eq_sym, andb_true_r].
  destruct k, s; cbn; auto using andb_false_r, andb_true_r, eq_sym.
Qed.

Lemma running_handle_events (w now : Z) (es : list Event) (g : Game) :
  running (handle_events w now g es)
  = running g && forallb (fun e => negb (stops e)) es.
Proof.
  unfold handle_events. revert g.
  induction es as [|e es IH]; intros g; cbn [fold_left forallb].
  - apply eq_sym, andb_true_r.
  - rewrite IH, running_handle_event, andb_assoc. reflexivity.
Qed.

Lemma running_logic (w : Z) (g : Game) (f : Frame) :
  running (logic w g f) = running g.
Proof.
  unfold logic. destruct (state g); try reflexivity.
  - destruct (move_up f); [reflexivity|]. destruct (move_down f); reflexivity.
  - destruct (_ || _ || _); reflexivity.
  - destruct (titanic_playing_tick _ _ _); reflexivity.
  - destruct (memory_show_tick _ _); reflexivity.
  - destruct (memory_input_tick _ _ _ _); reflexivity.
Qed.

(** X9. [running] after an iteration is [running] before it and no event
    of the frame being a window close or an escape key press, whatever the
    state.  So once such an event arrives the loop ends after the current
    iteration, whose state logic still runs, and no later frame has any
    effect. *)
Theorem quit_ends_the_loop (w : Z) (g : Game) (f : Frame) (fs : list Frame) :
  running (tick w g f)
  = running g && forallb (fun e => negb (stops e)) (events f)
  /\ (running g = true -> existsb stops (events f) = true ->
      run w g (f :: fs) = tick w g f)
  /\ (running g = false -> run w g (f :: fs) = g).
Proof.
  assert (Hr : running (tick w g f)
               = running g && forallb (fun e => negb (stops e)) (events f)).
  { unfold tick. cbn [set_prev running].
    rewrite running_logic, running_handle_events. reflexivity. }
  split; [exact Hr|]. split.
  - intros Hg Hq. cbn [run]. rewrite Hg.
    assert (Hstop : running (tick w g f) = false).
    { rewrite Hr, Hg. cbn [andb].
      apply not_true_is_false. intros Hall.
      apply existsb_exists in Hq. destruct Hq as (e & Hin & He).
      rewrite forallb_forall in Hall. specialize (Hall e Hin).
      rewrite He in Hall. discriminate Hall. }
    destruct fs as [|f' fs']; cbn [run]; [reflexivity|].
    rewrite Hstop. reflexivity.
  - intros Hg. cbn [run]. rewrite Hg. reflexivity.
Qed.

Lemma quit_ends_the_loop_witness :
  let g := input_phase [U; D; U] [] 3 0 0 in
  let f := frame 17 [KEYDOWN K_m; KEYDOWN K_ESCAPE] true false false 5000 270 in
  run 64 g [f; hold_down 5300; hold_down 5600] = tick 64 g f
  /\ mem_player_inputs (memory (tick 64 g f)) = [U].
Proof.
  intros g f.
  destruct (quit_ends_the_loop 64 g f [hold_down 5300; hold_down 5600])
    as (_ & Hq & _).
  split; [apply Hq; reflexivity | reflexivity].
Defined.

(** ** Memory: what every state of a session satisfies *)

Lemma mismatch_nil_eq (inputs sequence : list Dir) :
  length inputs = length sequence ->
  mismatch inputs sequence = [] -> inputs = sequence.
Proof.
  intros Hlen Hnil. apply (nth_ext inputs sequence U U Hlen).
  intros n Hn.
  destruct (Dir_eqb (nth n inputs U) (nth n sequence U)) eqn:E.
  - apply Dir_eqb_eq. exact E.
  - exfalso.
    assert (Hin : In n (mismatch inputs sequence)).
    { apply mismatch_In. split; [lia|]. intros Heq.
      apply Dir_eqb_eq in Heq. congruence. }
    rewrite Hnil in Hin. exact Hin.
Qed.

Lemma memory_restart_inv (t : Titanic) (m : Memory) (s : State)
    (pu pd r : bool) :
  0 <= mem_best_level m ->
  s <> memory_show -> s <> memory_input -> s <> memory_success ->
  s <> memory_game_over ->
  memory_inv (mkGame t (memory_restart m) s pu pd r).
Proof.
  intros Hb H1 H2 H3 H4. unfold memory_inv, memory_restart.
  cbn [memory state mem_level mem_best_level].
  split; [lia|]. split; [lia|]. split; [lia|].
  split; [|split; [|split]]; intros E; contradiction.
Qed.

(** The Memory invariant does not look at the Titanic variables, the
    previous input levels or [running], and outside the Memory phases it
    only constrains the level and the best level. *)
Lemma memory_inv_outside (t t' : Titanic) (m : Memory) (s s' : State)
    (pu pd r pu' pd' r' : bool) :
  memory_inv (mkGame t m s pu pd r) ->
  s' <> memory_show -> s' <> memory_input -> s' <> memory_success ->
  s' <> memory_game_over ->
  memory_inv (mkGame t' m s' pu' pd' r').
Proof.
  unfold memory_inv. cbn [memory state].
  intros (H1 & H2 & H3 & _) N1 N2 N3 N4.
  split; [exact H1|]. split; [exact H2|]. split; [exact H3|].
  split; [|split; [|split]]; intros E; contradiction.
Qed.

Lemma memory_inv_same (t t' : Titanic) (m : Memory) (s : State)
    (pu pd r pu' pd' r' : bool) :
  memory_inv (mkGame t m s pu pd r) -> memory_inv (mkGame t' m s pu' pd' r').
Proof. intros H. exact H. Qed.

Lemma handle_event_memory_inv (w now : Z) (g : Game) (e : Event) :
  memory_inv g -> memory_inv (handle_event w now g e).
Proof.
  destruct g as [t m s pu pd r]. intros H.
  destruct e as [|k|]; [exact H | | exact H].
  destruct k, s; cbn; try exact H;
    try (apply (memory_inv_outside _ _ _ _ _ _ _ _ _ _ _ H); discriminate);
    apply memory_restart_inv; try discriminate;
    destruct H as (_ & Hb & _); exact Hb.
Qed.

Lemma memory_input_tick_inv (t : Titanic) (m : Memory) (now : Z)
    (p_up p_down pu pd r pu' pd' r' : bool) :
  memory_inv (mkGame t m memory_input pu pd r) ->
  memory_inv (mkGame t (fst (memory_input_tick m now p_up p_down))
                     (snd (memory_input_tick m now p_up p_down)) pu' pd' r').
Proof.
  intros H. pose proof H as (H1 & H2 & H3 & _ & Hin & _).
  cbn [memory state] in *. specialize (Hin eq_refl).
  destruct Hin as (Hlen & Hlt & Hmm).
  unfold memory_input_tick.
  destruct (input_step m now p_up p_down) as [step|]; [|exact H].
  set (inputs := mem_player_inputs m ++ [step]).
  assert (Hil : length inputs = S (length (mem_player_inputs m)))
    by (unfold inputs; rewrite length_app; cbn; lia).
  destruct (length (mem_sequence m) <=? length inputs)%nat eqn:Eg;
    [apply Nat.leb_le in Eg | apply Nat.leb_gt in Eg].
  - assert (Heq : length inputs = length (mem_sequence m)) by lia.
    destruct (mismatch inputs (mem_sequence m)) as [|n l] eqn:Em;
      unfold memory_inv;
      cbn [fst snd memory state mem_level mem_best_level mem_sequence
           mem_player_inputs mem_mismatch_positions mem_show_index].
    + split; [lia|]. split; [lia|]. split; [lia|].
      split; [intros E; discriminate E|]. split; [intros E; discriminate E|].
      split; [|intros E; discriminate E].
      intros _. split; [apply mismatch_nil_eq; assumption|].
      split; [|exact Hmm]. rewrite Hlen, Z2Nat.id; lia.
    + split; [lia|]. split; [lia|].
      split; [destruct (mem_level m - 1 <? 0); lia|].
      split; [intros E; discriminate E|]. split; [intros E; discriminate E|].
      split; [intros E; discriminate E|].
      intros _. rewrite Em.
      split; [exact Heq|]. split; [exact Hlen|].
      split; [reflexivity | discriminate].
  - unfold memory_inv.
    cbn [fst snd memory state mem_level mem_best_level mem_sequence
         mem_player_inputs mem_mismatch_positions mem_show_index].
    split; [lia|]. split; [lia|]. split; [lia|].
    split; [intros E; discriminate E|].
    split; [|split; intros E; discriminate E].
    intros _. split; [exact Hlen|]. split; [lia | exact Hmm].
Qed.

Lemma memory_show_tick_inv (t : Titanic) (m : Memory) (f : Frame)
    (pu pd r : bool) :
  memory_inv (mkGame t m memory_show pu pd r) ->
  memory_inv (mkGame t (fst (memory_show_tick m f))
                     (snd (memory_show_tick m f)) pu pd r).
Proof.
  intros H. pose proof H as (H1 & H2 & H3 & Hsh & _).
  cbn [memory state] in *. specialize (Hsh eq_refl).
  destruct Hsh as (Hlen & Hidx & Hin & Hmm).
  unfold memory_show_tick.
  destruct (mem_showing_arrow m).
  - destruct (_ >=? _); [|exact H].
    unfold memory_inv.
    cbn [fst snd memory state mem_level mem_best_level mem_sequence
         mem_player_inputs mem_mismatch_positions mem_show_index].
    split; [lia|]. split; [lia|]. split; [lia|].
    split; [|split; [|split]; intros E; discriminate E].
    intros _. auto.
  - destruct (_ >=? _); [|exact H].
    destruct (length (mem_sequence m) <=? S (mem_show_index m))%nat eqn:Eg;
      [apply Nat.leb_le in Eg | apply Nat.leb_gt in Eg];
      unfold memory_inv;
      cbn [fst snd memory state mem_level mem_best_level mem_sequence
           mem_player_inputs mem_mismatch_positions mem_show_index].
    + split; [lia|]. split; [lia|]. split; [lia|].
      split; [intros E; discriminate E|].
      split; [|split; intros E; discriminate E].
      intros _. split; [exact Hlen|]. split; [cbn; lia | exact Hmm].
    + split; [lia|]. split; [lia|]. split; [lia|].
      split; [|split; [|split]; intros E; discriminate E].
      intros _. auto.
Qed.

Lemma logic_memory_inv (w : Z) (g : Game) (f : Frame) :
  memory_inv g -> memory_inv (logic w g f).
Proof.
  destruct g as [t m s pu pd r]. intros H. unfold logic.
  cbn [state titanic memory].
  destruct s.
  - destruct (move_up f);
      [apply (memory_inv_outside _ _ _ _ _ _ _ _ _ _ _ H); discriminate|].
    destruct (move_down f); [|exact H].
    apply memory_restart_inv; try discriminate.
    destruct H as (_ & Hb & _); exact Hb.
  - destruct (_ || _ || _); [|exact H].
    apply (memory_inv_outside _ _ _ _ _ _ _ _ _ _ _ H); discriminate.
  - assert (Hs : snd (titanic_playing_tick w t f) = titanic_playing
                 \/ snd (titanic_playing_tick w t f) = titanic_game_over).
    { unfold titanic_playing_tick.
      destruct (ticks f >=? next_spawn t); cbv beta iota zeta;
        (destruct (hit_test _ _);
         [destruct (_ <=? 0) | destruct (collect_stars _ _ _)]);
        cbn; auto. }
    destruct (titanic_playing_tick w t f) as [t' s']. cbn [snd] in Hs.
    cbn [set_state set_titanic titanic memory state prev_move_up
         prev_move_down running].
    apply (memory_inv_outside _ _ _ _ _ _ _ _ _ _ _ H);
      destruct Hs as [-> | ->]; discriminate.
  - exact H.
  - unfold memory_ready_tick.
    cbn [set_state set_memory titanic memory state prev_move_up
         prev_move_down running].
    unfold memory_inv in H. cbn [memory state] in H.
    destruct H as (H1 & H2 & H3 & _).
    unfold memory_inv, set_state, set_memory.
    cbn [memory state mem_level mem_best_level mem_sequence
         mem_player_inputs mem_mismatch_positions mem_show_index].
    split; [lia|]. split; [lia|]. split; [lia|].
    split; [|split; [|split]; intros E; discriminate E].
    intros _. rewrite length_map, length_seq.
    split; [reflexivity|]. split; [lia | auto].
  - pose proof (memory_show_tick_inv t m f pu pd r H) as Hs.
    destruct (memory_show_tick m f) as [m' s']. exact Hs.
  - pose proof (memory_input_tick_inv t m (ticks f)
                  (pressed_up (mkGame t m memory_input pu pd r) f)
                  (pressed_down (mkGame t m memory_input pu pd r) f)
                  pu pd r pu pd r H) as Hs.
    destruct (memory_input_tick _ _ _ _) as [m' s']. exact Hs.
  - unfold memory_success_tick. destruct (_ >=? _); [|exact H].
    apply (memory_inv_outside _ _ _ _ _ _ _ _ _ _ _ H); discriminate.
  - exact H.
Qed.

Lemma session_memory_inv (w now : Z) (fs : list Frame) :
  memory_inv (run w (initial_game w now) fs).
Proof.
  apply (run_preserves memory_inv (fun _ => True) w).
  - apply (tick_preserves memory_inv (fun _ => True) w).
    + intros; apply handle_event_memory_inv; assumption.
    + intros; apply logic_memory_inv; assumption.
    + intros g up down H. exact H.
  - apply Forall_forall. auto.
  - unfold memory_inv, initial_game. cbn.
    split; [lia|]. split; [lia|]. split; [lia|].
    split; [|split; [|split]]; intros E; discriminate E.
Qed.

(** X10. In every state a session can reach the Memory level is at least 1
    and the best level is at least the number of levels cleared in the
    current run, [mem_level - 1]; in particular it is never negative. *)
Theorem session_memory_levels (w now : Z) (fs : list Frame) :
  let m := memory (run w (initial_game w now) fs) in
  1 <= mem_level m
  /\ 0 <= mem_level m - 1 <= mem_best_level m.
Proof.
  destruct (session_memory_inv w now fs) as (H1 & H2 & H3 & _).
  cbv zeta. lia.
Qed.

(** X11. While a sequence is shown or typed in, it has exactly [mem_level]
    symbols and no mismatch is recorded.  During the show the index of the
    symbol on display is within the sequence, so the subscript the drawing
    code takes is in range, and no input has been collected; during input
    the player has typed fewer symbols than the sequence has, so a round is
    evaluated exactly when the last symbol arrives. *)
Theorem session_memory_round (w now : Z) (fs : list Frame) :
  let g := run w (initial_game w now) fs in
  let m := memory g in
  (state g = memory_show \/ state g = memory_input ->
   Z.of_nat (length (mem_sequence m)) = mem_level m
   /\ mem_mismatch_positions m = [])
  /\ (state g = memory_show ->
      (mem_show_index m < length (mem_sequence m))%nat
      /\ mem_player_inputs m = [])
  /\ (state g = memory_input ->
      (length (mem_player_inputs m) < length (mem_sequence m))%nat).
Proof.
  destruct (session_memory_inv w now fs) as (H1 & _ & _ & Hs & Hi & _).
  cbv zeta. split; [|split].
  - intros [E | E];
      [destruct (Hs E) as (Hl & _ & _ & Hm)
      | destruct (Hi E) as (Hl & _ & Hm)];
      (split; [rewrite Hl, Z2Nat.id; lia | exact Hm]).
  - intros E. destruct (Hs E) as (_ & Hx & Hp & _). auto.
  - intros E. destruct (Hi E) as (_ & Hx & _). exact Hx.
Qed.

(** X12. The verdict of a round is right.  In [memory_success] the inputs
    are the sequence, symbol for symbol, and the level has already been
    raised past its length.  In [memory_game_over] inputs and sequence have
    the same length but differ, and the recorded mismatch positions are
    exactly the indices at which they differ, of which there is at least
    one. *)
Theorem session_memory_verdict (w now : Z) (fs : list Frame) :
  let g := run w (initial_game w now) fs in
  let m := memory g in
  (state g = memory_success ->
   mem_player_inputs m = mem_sequence m
   /\ Z.of_nat (length (mem_sequence m)) = mem_level m - 1)
  /\ (state g = memory_game_over ->
      length (mem_player_inputs m) = length (mem_sequence m)
      /\ mem_player_inputs m <> mem_sequence m
      /\ mem_mismatch_positions m <> []
      /\ forall i, In i (mem_mismatch_positions m)
                   <-> (i < length (mem_sequence m))%nat
                       /\ nth i (mem_player_inputs m) U
                          <> nth i (mem_sequence m) U).
Proof.
  destruct (session_memory_inv w now fs) as (_ & _ & _ & _ & _ & Hs & Ho).
  cbv zeta. split.
  - intros E. destruct (Hs E) as (H1 & H2 & _). auto.
  - intros E. destruct (Ho E) as (Hl & _ & Hm & Hne).
    split; [exact Hl|]. split; [|split; [exact Hne|]].
    + intros Heq. apply Hne. rewrite Hm, Heq.
      apply filter_none. intros i _. apply negb_false_iff, Dir_eqb_eq.
      reflexivity.
    + intros i. rewrite Hm. apply mismatch_In.
Qed.

Lemma session_memory_round_witness :
  let m := memory (run 64 (initial_game 64 0) memory_session_input) in
  Z.of_nat (length (mem_sequence m)) = mem_level m
  /\ (length (mem_player_inputs m) < length (mem_sequence m))%nat.
Proof.
  destruct (session_memory_round 64 0 memory_session_input)
    as (Hlen & _ & Hin).
  split; [apply Hlen; right; reflexivity | apply Hin; reflexivity].
Defined.

Lemma session_memory_verdict_witness :
  let won := memory (run 64 (initial_game 64 0) memory_session_success) in
  let lost := memory (run 64 (initial_game 64 0) memory_session_over) in
  mem_player_inputs won = mem_sequence won
  /\ mem_player_inputs lost <> mem_sequence lost
  /\ mem_mismatch_positions lost <> [].
Proof.
  destruct (session_memory_verdict 64 0 memory_session_success)
    as (Hwon & _).
  destruct (session_memory_verdict 64 0 memory_session_over)
    as (_ & Hlost).
  split; [apply Hwon; reflexivity|].
  destruct Hlost as (_ & Hne & Hmm & _); [reflexivity|].
  split; assumption.
Defined.

(** ** Memory: the reveal takes its time *)

Lemma handle_event_revealing (w T0 L now : Z) (g : Game) (e : Event) :
  revealing T0 L g -> revealing T0 L (handle_event w now g e).
Proof.
  destruct g as [t m s pu pd r]. intros H.
  assert (Hs : s = memory_show) by apply H. subst s.
  destruct e as [|k|]; [exact H | | exact H].
  destruct k; exact H.
Qed.

Lemma logic_revealing (w T0 L : Z) (g : Game) (f : Frame) :
  ticks f < T0 + (MEM_SHOW_MS + MEM_GAP_MS) * L ->
  revealing T0 L g -> revealing T0 L (logic w g f).
Proof.
  destruct g as [t m s pu pd r]. intros Hnow H.
  pose proof H as (Hs & Hlen & Hidx & Ht). cbn [state memory] in *. subst s.
  unfold logic. cbn [state memory]. unfold memory_show_tick.
  unfold MEM_SHOW_MS, MEM_GAP_MS in *.
  destruct (mem_showing_arrow m) eqn:Ea.
  - destruct (ticks f - mem_last_change m >=? 650) eqn:Ec; [|exact H].
    rewrite Z.geb_leb in Ec. apply Z.leb_le in Ec.
    unfold revealing, set_state, set_memory, MEM_SHOW_MS, MEM_GAP_MS.
    cbn [state memory mem_sequence mem_show_index mem_showing_arrow
         mem_last_change].
    repeat split; try assumption; lia.
  - destruct (ticks f - mem_last_change m >=? 350) eqn:Ec;
      [|exact H].
    rewrite Z.geb_leb in Ec. apply Z.leb_le in Ec.
    destruct (length (mem_sequence m) <=? S (mem_show_index m))%nat eqn:Eg;
      [apply Nat.leb_le in Eg | apply Nat.leb_gt in Eg].
    + exfalso. nia.
    + unfold revealing, set_state, set_memory, MEM_SHOW_MS, MEM_GAP_MS.
      cbn [state memory mem_sequence mem_show_index mem_showing_arrow
           mem_last_change].
      repeat split; try assumption; lia.
Qed.

(** X13. A sequence of level [L] generated at clock reading [T0] is on
    show for at least [L * (650 + 350)] ms: whatever the frames bring, as
    long as their clock readings are below [T0 + 1000 * L] the state is
    still [memory_show], so no input is taken before the reveal is over. *)
Theorem reveal_takes_its_time (w : Z) (g : Game) (f0 : Frame)
    (fs : list Frame) :
  state g = memory_ready -> running g = true -> 1 <= mem_level (memory g) ->
  Forall (fun f => ticks f
                   < ticks f0
                     + (MEM_SHOW_MS + MEM_GAP_MS) * mem_level (memory g)) fs ->
  let g' := run w g (f0 :: fs) in
  state g' = memory_show
  /\ mem_player_inputs (memory g') = []
  /\ Z.of_nat (length (mem_sequence (memory g'))) = mem_level (memory g).
Proof.
  intros Hs Hr HL Hfs g'.
  set (T0 := ticks f0). set (L := mem_level (memory g)).
  assert (H1 : revealing T0 L (tick w g f0)).
  { unfold tick.
    destruct (handle_events_inert w (ticks f0) (events f0) g)
      as (_ & Hm & Hst); [rewrite Hs; reflexivity|].
    set (g1 := handle_events w (ticks f0) g (events f0)) in *.
    unfold logic. rewrite Hst, Hs. unfold memory_ready_tick.
    unfold revealing, set_prev, set_state, set_memory.
    cbn [state memory mem_sequence mem_show_index mem_showing_arrow
         mem_last_change].
    rewrite Hm, length_map, length_seq. fold L.
    split; [reflexivity|]. split; [apply Z2Nat.id; lia|].
    split; [lia|]. cbn. unfold T0. lia. }
  assert (H2 : revealing T0 L g' /\ mem_player_inputs (memory g') = []).
  { unfold g'. cbn [run]. rewrite Hr.
    apply (run_preserves
             (fun g => revealing T0 L g /\ mem_player_inputs (memory g) = [])
             (fun f => ticks f < T0 + (MEM_SHOW_MS + MEM_GAP_MS) * L) w).
    - intros g0 f Hf [Hrev Hin].
      assert (Hrev' : revealing T0 L (tick w g0 f)).
      { apply (tick_preserves (revealing T0 L)
                 (fun f => ticks f < T0 + (MEM_SHOW_MS + MEM_GAP_MS) * L) w);
          auto using handle_event_revealing, logic_revealing. }
      split; [exact Hrev'|].
      assert (Hs0 : state g0 = memory_show) by apply Hrev.
      unfold tick in *. cbn [set_prev memory state] in *.
      destruct (handle_events_inert w (ticks f) (events f) g0)
        as (_ & Hm & Hst); [rewrite Hs0; reflexivity|].
      set (g1 := handle_events w (ticks f) g0 (events f)) in *.
      assert (Hs' : state (logic w g1 f) = memory_show) by apply Hrev'.
      revert Hs'. unfold logic. rewrite Hst, Hs0. unfold memory_show_tick.
      rewrite Hm.
      destruct (mem_showing_arrow (memory g0));
        [destruct (_ >=? _)
        | destruct (_ >=? _); [destruct (_ <=? _)%nat|]];
        cbn; intros E; try discriminate E; assumption.
    - exact Hfs.
    - split; [exact H1|]. revert H1. unfold tick.
      destruct (handle_events_inert w (ticks f0) (events f0) g)
        as (_ & Hm & Hst); [rewrite Hs; reflexivity|].
      unfold logic. rewrite Hst, Hs. reflexivity. }
  destruct H2 as [(Hst & Hlen & _) Hin]. auto.
Qed.

Lemma reveal_takes_its_time_witness :
  let g := run 64 (initial_game 64 0) (memory_session_success ++ [idle 2500]) in
  state (run 64 g [idle 2600; idle 3300; idle 3700; hold_up 4400; idle 4599])
  = memory_show.
Proof.
  intros g.
  apply (reveal_takes_its_time 64 g (idle 2600)
           [idle 3300; idle 3700; hold_up 4400; idle 4599]).
  - reflexivity.
  - reflexivity.
  - vm_compute. discriminate.
  - repeat constructor.
Defined.

(** ** Drawing *)

Lemma nth_error_combine_seq (A : Type) (l : list A) (s i : nat) (d : A) :
  nth_error l i = Some d ->
  nth_error (combine (seq s (length l)) l) i = Some ((s + i)%nat, d).
Proof.
  revert s i. induction l as [|a l IH]; intros s [|i] H; cbn in *;
    try discriminate H.
  - injection H as ->. rewrite Nat.add_0_r. reflexivity.
  - rewrite (IH (S s) i H). f_equal. f_equal. lia.
Qed.

Lemma existsb_eqb_In (i : nat) (l : list nat) :
  existsb (Nat.eqb i) l = true <-> In i l.
Proof.
  rewrite existsb_exists. split.
  - intros (x & Hin & E). apply Nat.eqb_eq in E. subst x. exact Hin.
  - intros Hin. exists i. split; [exact Hin | apply Nat.eqb_refl].
Qed.

(** The [i]-th polygon of a row. *)
Lemma seq_row_nth (sequence : list Dir) (y : Z) (mm : option (list nat))
    (all_green : bool) (i : nat) (d : Dir) :
  nth_error sequence i = Some d ->
  nth_error (draw_memory_seq_row sequence y mm all_green) i
  = Some (if all_green then (0, 230, 120)
          else if existsb (Nat.eqb i)
                    match mm with None => [] | Some l => l end
               then (230, 70, 90) else (240, 240, 255),
          arrow_points d (WIDTH / 2 - 35 * (Z.of_nat (length sequence) - 1)
                          + 70 * Z.of_nat i) y 40).
Proof.
  intros H. unfold draw_memory_seq_row.
  rewrite nth_error_map, (nth_error_combine_seq _ sequence 0 i d H).
  cbn [option_map fst snd Nat.add]. f_equal. f_equal. f_equal.
  destruct sequence as [|a l]; [destruct i; discriminate H|].
  set (n := Z.of_nat (length (a :: l))).
  replace ((n - 1) * 70 / 2) with (35 * (n - 1))
    by (apply Z.div_unique_exact; lia).
  lia.
Qed.

(** X14. A row of [n] arrows is laid out 70 pixels apart and centred on
    the screen: arrow [i] points from [x = 480 - 35 * (n - 1) + 70 * i],
    coloured green when [all_green] is set, else red when [i] is a
    mismatch position, else white.  Rows of up to 14 arrows lie within the
    screen width; from 15 arrows on the first one sticks out on the left. *)
Theorem seq_row_layout (sequence : list Dir) (y : Z)
    (mm : option (list nat)) (all_green : bool) (i : nat) (d : Dir) :
  nth_error sequence i = Some d ->
  let n := Z.of_nat (length sequence) in
  let x := WIDTH / 2 - 35 * (n - 1) + 70 * Z.of_nat i in
  let color :=
    if all_green then (0, 230, 120)
    else if existsb (Nat.eqb i) match mm with None => [] | Some l => l end
         then (230, 70, 90) else (240, 240, 255) in
  length (draw_memory_seq_row sequence y mm all_green) = length sequence
  /\ nth_error (draw_memory_seq_row sequence y mm all_green) i
     = Some (color, arrow_points d x y 40)
  /\ (n <= 14 ->
      Forall (fun pt => 0 <= fst pt <= WIDTH) (arrow_points d x y 40))
  /\ (15 <= n -> i = 0%nat ->
      Exists (fun pt => fst pt < 0) (arrow_points d x y 40)).
Proof.
  intros H n x color.
  assert (Hi : (i < length sequence)%nat)
    by (apply nth_error_Some; rewrite H; discriminate).
  split; [|split; [|split]].
  - unfold draw_memory_seq_row.
    rewrite length_map, length_combine, length_seq. lia.
  - apply seq_row_nth. exact H.
  - intros Hn. subst x n. unfold WIDTH.
    destruct d; cbn [arrow_points]; change (40 / 3) with 13;
      change (960 / 2) with 480;
      repeat (apply Forall_cons; [cbv beta; cbn [fst]; lia|]);
      apply Forall_nil.
  - intros Hn ->. subst x n. unfold WIDTH.
    destruct d; cbn [arrow_points]; change (40 / 3) with 13;
      change (960 / 2) with 480;
      apply Exists_cons_tl, Exists_cons_hd; cbv beta; cbn [fst]; lia.
Qed.

Lemma seq_row_layout_witness :
  nth_error (draw_memory_seq_row [U; D; U] 270 (Some [1%nat]) false) 1
  = Some ((230, 70, 90), arrow_points D 480 270 40)
  /\ Forall (fun pt => 0 <= fst pt <= WIDTH) (arrow_points D 480 270 40).
Proof.
  destruct (seq_row_layout [U; D; U] 270 (Some [1%nat]) false 1 D)
    as (_ & Hnth & Hfit & _); [reflexivity|].
  split; [exact Hnth | apply Hfit; cbn; lia].
Defined.

(** X15. On the game-over screen of any session the two rows, the sequence
    above and the player's inputs below, have one arrow per symbol, and at
    every index both arrows are red exactly when the input there differs
    from the sequence, white otherwise. *)
Theorem game_over_marks_errors (w now t : Z) (fs : list Frame) (i : nat) :
  let g := run w (initial_game w now) fs in
  let m := memory g in
  let n := length (mem_sequence m) in
  state g = memory_game_over -> (i < n)%nat ->
  let x := WIDTH / 2 - 35 * (Z.of_nat n - 1) + 70 * Z.of_nat i in
  let mark :=
    if Dir_eqb (nth i (mem_player_inputs m) U) (nth i (mem_sequence m) U)
    then (240, 240, 255) else (230, 70, 90) in
  length (memory_polygons m (state g) t) = (2 * n)%nat
  /\ nth_error (memory_polygons m (state g) t) i
     = Some (mark, arrow_points (nth i (mem_sequence m) U) x
                                (HEIGHT / 2 + 50) 40)
  /\ nth_error (memory_polygons m (state g) t) (n + i)
     = Some (mark, arrow_points (nth i (mem_player_inputs m) U) x
                                (HEIGHT / 2 + 110) 40).
Proof.
  intros g m n Hs Hi x mark.
  destruct (session_memory_inv w now fs) as (_ & _ & _ & _ & _ & _ & Ho).
  fold g in Ho. fold m in Ho. destruct (Ho Hs) as (Hl & _ & Hm & _).
  fold n in Hl. rewrite Hs. unfold memory_polygons.
  assert (Hcolor : (if existsb (Nat.eqb i) (mem_mismatch_positions m)
                    then (230, 70, 90) else (240, 240, 255)) = mark).
  { unfold mark.
    destruct (Dir_eqb (nth i (mem_player_inputs m) U)
                      (nth i (mem_sequence m) U)) eqn:E.
    - replace (existsb _ _) with false; [reflexivity|].
      symmetry. apply not_true_is_false. rewrite existsb_eqb_In, Hm.
      rewrite mismatch_In. intros [_ Hd]. apply Hd, Dir_eqb_eq, E.
    - replace (existsb _ _) with true; [reflexivity|].
      symmetry. rewrite existsb_eqb_In, Hm. apply mismatch_In.
      split; [exact Hi|]. intros Heq. apply Dir_eqb_eq in Heq. congruence. }
  assert (Hlen1 : length (draw_memory_seq_row (mem_sequence m)
                            (HEIGHT / 2 + 50)
                            (Some (mem_mismatch_positions m)) false) = n).
  { unfold draw_memory_seq_row.
    rewrite length_map, length_combine, length_seq. fold n. lia. }
  assert (Hlen2 : length (draw_memory_seq_row (mem_player_inputs m)
                            (HEIGHT / 2 + 110)
                            (Some (mem_mismatch_positions m)) false) = n).
  { unfold draw_memory_seq_row.
    rewrite length_map, length_combine, length_seq. lia. }
  split; [rewrite length_app, Hlen1, Hlen2; lia|]. split.
  - rewrite nth_error_app1 by (rewrite Hlen1; exact Hi).
    rewrite (seq_row_nth _ _ _ _ i (nth i (mem_sequence m) U))
      by (apply nth_error_nth'; exact Hi).
    fold n. fold x. cbv beta iota. rewrite Hcolor. reflexivity.
  - rewrite nth_error_app2 by (rewrite Hlen1; lia).
    rewrite Hlen1. replace (n + i - n)%nat with i by lia.
    rewrite (seq_row_nth _ _ _ _ i (nth i (mem_player_inputs m) U))
      by (apply nth_error_nth'; rewrite Hl; exact Hi).
    rewrite Hl. fold x. cbv beta iota. rewrite Hcolor. reflexivity.
Qed.

Lemma game_over_marks_errors_witness :
  let m := memory (run 64 (initial_game 64 0) memory_session_over) in
  nth_error (memory_polygons m memory_game_over 5300) 0
  = Some ((230, 70, 90), arrow_points U 445 (HEIGHT / 2 + 50) 40)
  /\ nth_error (memory_polygons m memory_game_over 5300) (2 + 1)
     = Some ((240, 240, 255), arrow_points U 515 (HEIGHT / 2 + 110) 40).
Proof.
  destruct (game_over_marks_errors 64 0 5300 memory_session_over 0)
    as (_ & H0 & _); [reflexivity | vm_compute; lia|].
  destruct (game_over_marks_errors 64 0 5300 memory_session_over 1)
    as (_ & _ & H1); [reflexivity | vm_compute; lia|].
  split; [exact H0 | exact H1].
Defined.

Lemma clamp_progress (p : Q) :
  let q := py_max 0 (py_min 1 p) in
  (0 <= q <= 1)%Q
  /\ ((p <= 0)%Q -> q = 0%Q)
  /\ ((1 <= p)%Q -> q = 1%Q)
  /\ ((0 <= p <= 1)%Q -> q == p).
Proof.
  unfold py_max, py_min.
  destruct (Qle_bool 1 p) eqn:E1.
  - apply Qle_bool_iff in E1. cbn.
    split; [split; lra|]. split; [intros H; exfalso; lra|].
    split; [reflexivity|]. intros [_ H]. lra.
  - assert (H1 : (p < 1)%Q).
    { apply Qnot_le_lt. intros H. apply Qle_bool_iff in H. congruence. }
    destruct (Qle_bool p 0) eqn:E2.
    + apply Qle_bool_iff in E2.
      split; [split; lra|]. split; [reflexivity|].
      split; [intros H; exfalso; lra|]. intros [H _]. lra.
    + assert (H0 : (0 < p)%Q).
      { apply Qnot_le_lt. intros H. apply Qle_bool_iff in H. congruence. }
      split; [split; lra|]. split; [intros H; exfalso; lra|].
      split; [intros H; exfalso; lra|]. intros _. reflexivity.
Qed.

(** X16. The arrow of the show phase only rises: for any two progress
    values in order, also outside [0, 1], the later arrow is drawn no lower
    than the earlier one, between the start 60 pixels below the screen and
    the screen's centre line; it starts exactly at the bottom position for
    progress up to 0 and rests exactly on the centre line from progress 1
    on. *)
Theorem arrow_rises (direction : Dir) (p1 p2 : Q) :
  (p1 <= p2)%Q ->
  exists y1 y2,
    draw_memory_arrow direction p1
    = ((250, 250, 255), arrow_points direction (WIDTH / 2) y1 60)
    /\ draw_memory_arrow direction p2
       = ((250, 250, 255), arrow_points direction (WIDTH / 2) y2 60)
    /\ HEIGHT / 2 <= y2 <= y1 /\ y1 <= HEIGHT + 60
    /\ ((p1 <= 0)%Q -> y1 = HEIGHT + 60)
    /\ ((1 <= p2)%Q -> y2 = HEIGHT / 2).
Proof.
  intros Hp. unfold draw_memory_arrow.
  destruct (clamp_progress p1) as ([Ha1 Hb1] & Hz1 & Ho1 & Hi1).
  destruct (clamp_progress p2) as ([Ha2 Hb2] & Hz2 & Ho2 & Hi2).
  cbv zeta in *.
  set (q1 := py_max 0 (py_min 1 p1)) in *.
  set (q2 := py_max 0 (py_min 1 p2)) in *.
  assert (Hq : (q1 <= q2)%Q).
  { destruct (Qlt_le_dec p1 0) as [L1 | L1];
      [rewrite Hz1 by lra; exact Ha2|].
    destruct (Qlt_le_dec 1 p2) as [L2 | L2];
      [rewrite Ho2 by lra; exact Hb1|].
    rewrite (Hi1 (conj L1 (Qle_trans _ _ _ Hp L2))).
    rewrite (Hi2 (conj (Qle_trans _ _ _ L1 Hp) L2)). exact Hp. }
  change (inject_Z (HEIGHT + 60)) with 600%Q.
  change (inject_Z (HEIGHT / 2 - (HEIGHT + 60))) with (-330)%Q.
  change (HEIGHT / 2) with 270. change (HEIGHT + 60) with 600.
  eexists. eexists. split; [reflexivity|]. split; [reflexivity|].
  assert (H1 : (0 <= 600 + -330 * q1)%Q) by lra.
  assert (H2 : (0 <= 600 + -330 * q2)%Q) by lra.
  rewrite (py_int_nonneg _ H1), (py_int_nonneg _ H2).
  split; [split|split; [|split]].
  - assert (H : (inject_Z 270 <= 600 + -330 * q2)%Q)
      by (change (inject_Z 270) with 270%Q; lra).
    apply Qfloor_resp_le in H. rewrite Qfloor_Z in H. exact H.
  - apply Qfloor_resp_le. lra.
  - assert (H : (600 + -330 * q1 <= inject_Z 600)%Q)
      by (change (inject_Z 600) with 600%Q; lra).
    apply Qfloor_resp_le in H. rewrite Qfloor_Z in H. exact H.
  - intros H. rewrite (Hz1 H). reflexivity.
  - intros H. rewrite (Ho2 H). reflexivity.
Qed.

Lemma arrow_rises_witness :
  exists y1 y2,
    draw_memory_arrow U (-1)
    = ((250, 250, 255), arrow_points U (WIDTH / 2) y1 60)
    /\ draw_memory_arrow U (3 # 2)
       = ((250, 250, 255), arrow_points U (WIDTH / 2) y2 60)
    /\ y1 = HEIGHT + 60 /\ y2 = HEIGHT / 2.
Proof.
  destruct (arrow_rises U (-1) (3 # 2)) as (y1 & y2 & E1 & E2 & _ & _ & H1 & H2);
    [discriminate|].
  exists y1, y2. split; [exact E1|]. split; [exact E2|].
  split; [apply H1 | apply H2]; discriminate.
Defined.

(** X17. The scrolling background never shows a seam.  If [bg_x] lies in
    [-WIDTH, 0], as the initial 0 does, and the frame is not so long that
    the image scrolls by more than its width, then after the update [bg_x]
    lies in [-WIDTH, 0] again, and the two copies of the screen-wide image,
    drawn side by side, start at or left of the left edge and end at or
    right of the right edge.  The interval is closed at both ends: rounded
    float arithmetic can land on either end exactly. *)
Theorem background_covers_screen (bg_x dt : Q) :
  (inject_Z (- WIDTH) <= bg_x)%Q -> (bg_x <= 0)%Q ->
  (0 <= dt)%Q -> ((3 # 10) * dt <= inject_Z WIDTH)%Q ->
  let b := scroll_background bg_x dt in
  (inject_Z (- WIDTH) <= b)%Q /\ (b <= 0)%Q
  /\ - WIDTH <= fst (background_blits b) <= 0
  /\ snd (background_blits b) = fst (background_blits b) + WIDTH
  /\ 0 <= snd (background_blits b) <= WIDTH.
Proof.
  intros Hlo Hhi Hdt Hlen b.
  assert (Hb : (inject_Z (- WIDTH) <= b)%Q /\ (b <= 0)%Q).
  { unfold b, scroll_background.
    change (inject_Z (- WIDTH)) with (-960)%Q in *.
    change (inject_Z WIDTH) with 960%Q in *.
    destruct (Qle_bool _ _) eqn:E.
    - apply Qle_bool_iff in E. split; lra.
    - assert (H : (-960 < bg_x - (3 # 10) * dt)%Q).
      { apply Qnot_le_lt. intros H. apply Qle_bool_iff in H. congruence. }
      split; lra. }
  destruct Hb as [Hb1 Hb2]. split; [exact Hb1|]. split; [exact Hb2|].
  unfold background_blits. cbn [fst snd].
  assert (Hb0 : (inject_Z (- WIDTH - 1) < b)%Q).
  { change (inject_Z (- WIDTH - 1)) with (-961)%Q.
    change (inject_Z (- WIDTH)) with (-960)%Q in Hb1. lra. }
  pose proof (py_int_between_nonpos b (- WIDTH - 1) Hb0 Hb2) as Hi.
  unfold WIDTH in *. lia.
Qed.

Lemma background_covers_screen_witness :
  let b := scroll_background (- 960) (dt_of (idle 0)) in
  (inject_Z (- WIDTH) <= b)%Q /\ (b <= 0)%Q
  /\ - WIDTH <= fst (background_blits b) <= 0
  /\ snd (background_blits b) = fst (background_blits b) + WIDTH
  /\ 0 <= snd (background_blits b) <= WIDTH.
Proof.
  apply background_covers_screen; vm_compute; try reflexivity; discriminate.
Defined.

(** X18. The HUD shows the lives that are left: in every state a session
    can reach, the number of live hearts among the three drawn is
    [lives_left]; the hearts are 36 pixels apart with the first one flush
    with the right edge, and the live ones are the rightmost. *)
Theorem hearts_show_lives (w now : Z) (fs : list Frame) :
  Forall frame_ok fs ->
  let lives := lives_left (titanic (run w (initial_game w now) fs)) in
  draw_hearts lives
  = [(0 <? lives, WIDTH - 28); (1 <? lives, WIDTH - 28 - 36);
     (2 <? lives, WIDTH - 28 - 72)]
  /\ Z.of_nat (length (filter fst (draw_hearts lives))) = lives.
Proof.
  intros Hfs lives.
  destruct (session_titanic_inv w now fs Hfs) as (Hl & _).
  fold lives in Hl. unfold INITIAL_LIVES in Hl.
  split; [reflexivity|].
  assert (H : lives = 0 \/ lives = 1 \/ lives = 2 \/ lives = 3) by lia.
  destruct H as [-> | [-> | [-> | ->]]]; reflexivity.
Qed.

Lemma hearts_show_lives_witness :
  let lives :=
    lives_left (titanic (run 64 (initial_game 64 0)
                             (firstn 6 session_played))) in
  Z.of_nat (length (filter fst (draw_hearts lives))) = lives
  /\ lives = 2.
Proof.
  split; [|reflexivity].
  apply (hearts_show_lives 64 0 (firstn 6 session_played)).
  repeat constructor; cbn; try lia; try discriminate.
Defined.

(** ** The selector and fresh presses *)

Lemma logic_to_selector (w : Z) (g : Game) (f : Frame) :
  state (logic w g f) = mode_select ->
  state g = mode_select /\ move_up f = false /\ move_down f = false.
Proof.
  unfold logic. destruct (state g) eqn:Es.
  - destruct (move_up f); [intros E; discriminate E|].
    destruct (move_down f); [intros E; discriminate E | auto].
  - destruct (_ || _ || _); cbn; rewrite ?Es; intros E; discriminate E.
  - pose proof (titanic_playing_tick_state w (titanic g) f) as H.
    destruct (titanic_playing_tick w (titanic g) f) as [t s].
    cbn in *. intros E. destruct H; congruence.
  - rewrite Es. intros E; discriminate E.
  - cbn. intros E; discriminate E.
  - unfold memory_show_tick.
    destruct (mem_showing_arrow _);
      [destruct (_ >=? _)
      | destruct (_ >=? _); [destruct (_ <=? _)%nat|]];
      cbn; intros E; discriminate E.
  - unfold memory_input_tick.
    destruct (input_step _ _ _ _);
      [destruct (_ <=? _)%nat; [destruct (mismatch _ _)|]|];
      cbn; intros E; discriminate E.
  - unfold memory_success_tick. destruct (_ >=? _); cbn;
      intros E; discriminate E.
  - rewrite Es. intros E; discriminate E.
Qed.

(** The event loop brings the state to the selector only by the [M] key
    in a game-over state. *)
Lemma handle_events_to_selector (w now : Z) (es : list Event) (g : Game) :
  state (handle_events w now g es) = mode_select ->
  state g = mode_select
  \/ (game_over_state (state g) = true /\ In (KEYDOWN K_m) es).
Proof.
  unfold handle_events. revert g.
  induction es as [|e es IH]; intros g H; cbn [fold_left] in H; [auto|].
  apply IH in H. destruct g as [t m s pu pd r]. cbn [state].
  destruct H as [H | [H1 H2]].
  - destruct e as [|k|]; cbn in H; auto.
    destruct k, s; cbn in H; try discriminate H; auto;
      right; (split; [reflexivity | left; reflexivity]).
  - right. split; [|right; exact H2].
    destruct e as [|k|]; cbn in H1; auto.
    destruct k, s; cbn in H1; try discriminate H1; reflexivity.
Qed.

(** X19. Whenever an iteration of a session starts in the selector, no
    input was held at the end of the previous iteration: a level seen by
    the selector then is a rising edge.  And the selector is entered
    within an iteration only from a game-over state by an [M] key press
    among the frame's events, so a hold can reach the selector only
    through the [M] key pressed within the same iteration. *)
Theorem selector_sees_fresh_presses (w now : Z) (fs : list Frame)
    (f : Frame) :
  let g := run w (initial_game w now) fs in
  (state g = mode_select ->
   prev_move_up g = false /\ prev_move_down g = false
   /\ pressed_up g f = move_up f /\ pressed_down g f = move_down f)
  /\ (state (handle_events w (ticks f) g (events f)) = mode_select ->
      state g = mode_select
      \/ (game_over_state (state g) = true
          /\ In (KEYDOWN K_m) (events f))).
Proof.
  intros g. split; [|apply handle_events_to_selector].
  intros Hs.
  assert (H : state g = mode_select ->
              prev_move_up g = false /\ prev_move_down g = false).
  { apply (run_preserves
             (fun g => state g = mode_select ->
                       prev_move_up g = false /\ prev_move_down g = false)
             (fun _ => True) w).
    - intros g0 f0 _ _. unfold tick. cbn [set_prev state prev_move_up
                                           prev_move_down].
      intros E. apply logic_to_selector in E.
      destruct E as (_ & -> & ->). auto.
    - apply Forall_forall. auto.
    - intros _. auto. }
  destruct (H Hs) as [Hu Hd]. unfold pressed_up, pressed_down.
  rewrite Hu, Hd, !andb_true_r. auto.
Qed.

Lemma selector_sees_fresh_presses_witness :
  let g := run 64 (initial_game 64 0) session_abandoned in
  let h := run 64 (initial_game 64 0) (session_played ++ [hold_up 5250]) in
  (prev_move_up g = false /\ prev_move_down g = false
   /\ pressed_up g (hold_up 5400) = move_up (hold_up 5400)
   /\ pressed_down g (hold_up 5400) = move_down (hold_up 5400))
  /\ (state h = mode_select
      \/ (game_over_state (state h) = true
          /\ In (KEYDOWN K_m) (events (key_m true 5300)))).
Proof.
  intros g h.
  destruct (selector_sees_fresh_presses 64 0 session_abandoned (hold_up 5400))
    as [Hfresh _].
  destruct (selector_sees_fresh_presses 64 0
              (session_played ++ [hold_up 5250]) (key_m true 5300))
    as [_ Hm].
  split; [apply Hfresh; reflexivity | apply Hm; reflexivity].
Defined.

(** ** Spawning *)

(** X20. A playing tick adds at most one pair to the field, and only when
    the spawn time has come; when it has, and also after a hit, the next
    spawn time is set at least 780 ms after the current clock reading;
    otherwise it is left alone. *)
Theorem spawn_pacing (w : Z) (t : Titanic) (f : Frame) :
  let t' := fst (titanic_playing_tick w t f) in
  (length (icebergs t') <= length (icebergs t) + 1)%nat
  /\ (next_spawn t' = next_spawn t \/ ticks f + 780 <= next_spawn t')
  /\ (ticks f < next_spawn t ->
      (length (icebergs t') <= length (icebergs t))%nat)
  /\ (next_spawn t <= ticks f -> ticks f + 780 <= next_spawn t').
Proof.
  unfold titanic_playing_tick.
  pose proof (spawn_interval_range (score t)) as Hi.
  destruct (ticks f >=? next_spawn t) eqn:E; rewrite Z.geb_leb in E;
    [apply Z.leb_le in E | apply Z.leb_gt in E];
    cbv beta iota zeta;
    (match goal with
     | |- context [filter ?P (map ?F ?L)] =>
         pose proof (filter_length_le P (map F L)) as Hf;
         rewrite length_map in Hf; try rewrite length_app in Hf;
         cbn [length] in Hf;
         set (field := filter P (map F L)) in *
     end);
    (destruct (hit_test _ field);
     [destruct (_ <=? 0)
     | rewrite collect_stars_spec]);
    cbn [fst snd icebergs next_spawn length]; rewrite ?length_map;
    repeat split; try lia; try (right; lia); try (left; reflexivity).
Qed.

(** ** Stars *)

(** X21. On every pair of a reachable field whose star is not collected
    yet, the star's 32 pixel rect lies inside the gap with at least 8
    pixels of clearance above and below, and horizontally inside the pair;
    it overlaps neither drawn iceberg. *)
Theorem star_sits_in_gap (w now : Z) (fs : list Frame) :
  Forall frame_ok fs ->
  Forall (fun ib =>
            IcebergPair.star_collected ib = false ->
            exists r, IcebergPair.star_rect ib = Some r
              /\ Rect.w r = STAR_SIZE /\ Rect.h r = STAR_SIZE
              /\ Rect.bottom (fst (IcebergPair.rects ib)) + 8 <= Rect.top r
              /\ Rect.bottom r + 8 <= Rect.top (snd (IcebergPair.rects ib))
              /\ Rect.left (fst (IcebergPair.rects ib)) <= Rect.left r
              /\ Rect.right r <= Rect.right (fst (IcebergPair.rects ib))
              /\ Rect.colliderect r (fst (IcebergPair.rects ib)) = false
              /\ Rect.colliderect r (snd (IcebergPair.rects ib)) = false)
         (icebergs (titanic (run w (initial_game w now) fs))).
Proof.
  intros Hfs.
  destruct (session_titanic_inv w now fs Hfs)
    as (_ & _ & _ & _ & _ & _ & _ & _ & Hibs).
  apply Forall_impl with (2 := Hibs). intros ib [Hshape Hoff] Hc.
  pose proof (pair_rects_heights ib Hshape) as ([Hth1 Hth2] & Hbh & Hbb).
  destruct Hshape as (Hw & Hg & (gy & Egy & Hgy) & (sy & Esy & Hs1 & Hs2) & Hx).
  unfold IcebergPair.star_rect. rewrite Esy, Hc. eexists.
  split; [reflexivity|].
  unfold IcebergPair.rects, Rect.bottom, Rect.top, Rect.left, Rect.right,
    Rect.set_centerx, Rect.set_centery, STAR_SIZE in *.
  cbn [fst snd Rect.x Rect.y Rect.w Rect.h] in *. rewrite Hw in *.
  change (Z.shiftr 32 1) with 16. unfold PIPE_WIDTH, HEIGHT, PIPE_GAP_BASE in *.
  rewrite Egy in *.
  assert (Hg1 : (148 <= inject_Z (IcebergPair.gap ib))%Q)
    by (change 148%Q with (inject_Z 148); rewrite <- Zle_Qle; lia).
  assert (Hg2 : (inject_Z (IcebergPair.gap ib) <= 220)%Q)
    by (change 220%Q with (inject_Z 220); rewrite <- Zle_Qle; lia).
  assert (Hy1 : (140 <= inject_Z gy)%Q)
    by (change 140%Q with (inject_Z 140); rewrite <- Zle_Qle; lia).
  set (lo := (inject_Z gy - inject_Z (IcebergPair.gap ib) / 2)%Q) in *.
  set (hi := (inject_Z gy + inject_Z (IcebergPair.gap ib) / 2)%Q) in *.
  assert (Hlo0 : (0 <= lo)%Q) by (unfold lo; half_lra).
  assert (Hhi0 : (0 <= hi)%Q) by (unfold hi; half_lra).
  assert (Hsy0 : (0 <= sy)%Q) by lra.
  rewrite (py_int_nonneg sy Hsy0).
  rewrite (py_int_nonneg lo Hlo0) in *. rewrite (py_int_nonneg hi Hhi0) in *.
  assert (Htop : Qfloor lo + 24 <= Qfloor sy).
  { rewrite <- (Qfloor_Z (Qfloor lo + 24)). apply Qfloor_resp_le.
    pose proof (Qfloor_le lo) as H. rewrite inject_Z_plus.
    change (inject_Z 24) with 24%Q. lra. }
  assert (Hbot : Qfloor sy + 24 <= Qfloor hi).
  { rewrite <- (Qfloor_Z (Qfloor sy + 24)). apply Qfloor_resp_le.
    pose proof (Qfloor_le sy) as H. rewrite inject_Z_plus.
    change (inject_Z 24) with 24%Q. lra. }
  set (X := py_int (IcebergPair.x ib)) in *.
  set (C := py_int (IcebergPair.x ib + inject_Z 120 / 2)) in *.
  assert (HC : X + 59 <= C <= X + 61).
  { pose proof (py_int_near (IcebergPair.x ib)) as [H1 H2].
    pose proof (py_int_near (IcebergPair.x ib + inject_Z 120 / 2))
      as [H3 H4].
    fold X in H1, H2. fold C in H3, H4.
    change (inject_Z 120) with 120%Q in H3, H4.
    assert (H5 : (inject_Z (X + 58) < inject_Z C)%Q)
      by (rewrite inject_Z_plus; change (inject_Z 58) with 58%Q; half_lra).
    assert (H6 : (inject_Z C < inject_Z (X + 62))%Q)
      by (rewrite inject_Z_plus; change (inject_Z 62) with 62%Q; half_lra).
    rewrite <- Zlt_Qlt in H5, H6. lia. }
  repeat split; try lia.
  - apply not_true_is_false. rewrite colliderect_true.
    cbn [Rect.x Rect.y Rect.w Rect.h]. lia.
  - apply not_true_is_false. rewrite colliderect_true.
    cbn [Rect.x Rect.y Rect.w Rect.h]. lia.
Qed.

Lemma star_sits_in_gap_witness :
  Forall (fun ib =>
            IcebergPair.star_collected ib = false ->
            exists r, IcebergPair.star_rect ib = Some r
              /\ Rect.w r = STAR_SIZE /\ Rect.h r = STAR_SIZE
              /\ Rect.bottom (fst (IcebergPair.rects ib)) + 8 <= Rect.top r
              /\ Rect.bottom r + 8 <= Rect.top (snd (IcebergPair.rects ib))
              /\ Rect.left (fst (IcebergPair.rects ib)) <= Rect.left r
              /\ Rect.right r <= Rect.right (fst (IcebergPair.rects ib))
              /\ Rect.colliderect r (fst (IcebergPair.rects ib)) = false
              /\ Rect.colliderect r (snd (IcebergPair.rects ib)) = false)
         (icebergs (titanic (run 64 (initial_game 64 0) session_played))).
Proof.
  apply star_sits_in_gap.
  repeat constructor; cbn; try lia; try discriminate.
Defined.

Lemma spawn_pacing_witness :
  let t := mkTitanic resting_player [pair_at 600] 12 5000 3 in
  (length (icebergs (fst (titanic_playing_tick 64 t (idle 4999)))) <= 1)%nat
  /\ 5000 + 780 <= next_spawn (fst (titanic_playing_tick 64 t (idle 5000))).
Proof.
  intros t.
  destruct (spawn_pacing 64 t (idle 4999)) as (_ & _ & Hearly & _).
  destruct (spawn_pacing 64 t (idle 5000)) as (_ & _ & _ & Hdue).
  split; [apply Hearly; reflexivity | apply Hdue; discriminate].
Defined.
